(** * st-lib/form: schema-driven form fields over a mutable backing value

    A shallow embedding of [src/index.ts].  The program builds, from a
    declarative schema and a caller-owned backing value, a tree of callable
    fields ([createForm] / [createField]) and extracts a validated plain data
    tree from such a field tree ([getFormData] / [getFieldData]).

    JavaScript objects and arrays are shared mutable data, so backing values
    live in an explicit heap and are passed around by reference; closures
    (the setters handed from a parent field to its sub-fields) are Rocq
    functions transforming that heap. *)

From stdpp Require Import base option list strings gmap pretty.

Local Open Scope string_scope.
Local Open Scope list_scope.

(** ** JavaScript values *)

(** The carrier of JavaScript numbers (IEEE doubles).  The program never
    computes with numbers itself: it only hands them to the host (printing,
    parsing, [Date] construction), so the carrier stays abstract. *)
Class Carrier := { number : Type }.

(** Heap addresses of plain objects and arrays. *)
Abbreviation loc := nat (only parsing).

Section Values.
Context `{Carrier}.

(** Values the program can meet as backing data.  Plain objects and arrays
    are references into the heap.  [Date] objects and boxed [Boolean]
    objects are kept as immutable atoms carrying their primitive content
    (the time value, the wrapped boolean). *)
Inductive value :=
| VUndefined
| VNull
| VBool (b : bool)
| VNum (n : number)
| VStr (s : string)
| VFun (name : string)
| VDate (t : number)
| VBoolean (b : bool)
| VRef (l : loc).

(** Heap cells: a plain object (own string-keyed properties) or a dense
    array. *)
Inductive hobj :=
| HObj (props : gmap string value)
| HArr (elems : list value).

(** The heap: the cell at address [l] is [h !! l]. *)
Abbreviation heap := (list hobj) (only parsing).

(** [typeof v] *)
Definition typeof (v : value) : string :=
  match v with
  | VUndefined => "undefined"
  | VNull => "object"
  | VBool _ => "boolean"
  | VNum _ => "number"
  | VStr _ => "string"
  | VFun _ => "function"
  | VDate _ | VBoolean _ | VRef _ => "object"
  end.

(** [null == v] *)
Definition nullish (v : value) : bool :=
  match v with
  | VUndefined | VNull => true
  | _ => false
  end.

(** [typeof v === 'object' && null != v] *)
Definition is_object_typed (v : value) : bool :=
  String.eqb (typeof v) "object" && negb (nullish v).

(** [Array.isArray(v)] *)
Definition Array_isArray (h : heap) (v : value) : bool :=
  match v with
  | VRef l => match h !! l with Some (HArr _) => true | _ => false end
  | _ => false
  end.

(** Allocation of a fresh cell ([{}] or [[]] literals). *)
Definition alloc (o : hobj) (h : heap) : loc * heap := (length h, h ++ [o]).

(** *** Array indices written as property keys *)

Definition digit_of_ascii (c : Ascii.ascii) : option nat :=
  let n := Ascii.nat_of_ascii c in
  if bool_decide (48 ≤ n ≤ 57)%nat then Some (n - 48) else None.

Fixpoint digits_value (acc : nat) (s : string) : option nat :=
  match s with
  | EmptyString => Some acc
  | String c rest =>
      match digit_of_ascii c with
      | Some d => digits_value (10 * acc + d) rest
      | None => None
      end
  end.

(** A property key is an array index when it is the canonical decimal
    spelling of a natural number (["0"], ["17"]; not [""], ["01"]). *)
Definition index_of_key (key : string) : option nat :=
  match key with
  | EmptyString => None
  | _ =>
      match digits_value 0 key with
      | Some n => if String.eqb (pretty n) key then Some n else None
      | None => None
      end
  end.

(** [a[i] = x] on a dense array: in-range writes replace, writes past the
    end grow the array (the skipped slots read as [undefined]). *)
Definition array_store (i : nat) (x : value) (elems : list value) : list value :=
  if bool_decide (i < length elems)%nat then <[i := x]> elems
  else elems ++ replicate (i - length elems) VUndefined ++ [x].

(** *** Property access

    [get_prop h v key] is [v[key]] and [set_prop v key x h] is the heap
    after [v[key] = x], for an object-typed [v].  Only own properties are
    modelled: of a plain object, its properties; of an array, its indexed
    elements.  Named properties of arrays and properties of [Date] and
    [Boolean] objects are not tracked (they read as [undefined] and writes
    to them leave the heap as it is). *)
Definition get_prop (h : heap) (v : value) (key : string) : value :=
  match v with
  | VRef l =>
      match h !! l with
      | Some (HObj props) => default VUndefined (props !! key)
      | Some (HArr elems) =>
          match index_of_key key with
          | Some i => default VUndefined (elems !! i)
          | None => VUndefined
          end
      | None => VUndefined
      end
  | _ => VUndefined
  end.

Definition set_prop (v : value) (key : string) (x : value) (h : heap) : heap :=
  match v with
  | VRef l =>
      match h !! l with
      | Some (HObj props) => <[l := HObj (<[key := x]> props)]> h
      | Some (HArr elems) =>
          match index_of_key key with
          | Some i => <[l := HArr (array_store i x elems)]> h
          | None => h
          end
      | None => h
      end
  | _ => h
  end.

(** [a[index] = x] through an array reference. *)
Definition set_index (l : loc) (index : nat) (x : value) (h : heap) : heap :=
  match h !! l with
  | Some (HArr elems) => <[l := HArr (array_store index x elems)]> h
  | _ => h
  end.

(** The elements of the array at [l]. *)
Definition elements (h : heap) (l : loc) : list value :=
  match h !! l with
  | Some (HArr elems) => elems
  | _ => []
  end.

(** [isFile]: the structural test of the source, member by member. *)
Definition isFile (h : heap) (it : value) : bool :=
  String.eqb (typeof it) "object"
  && negb (nullish it)
  && String.eqb (typeof (get_prop h it "stream")) "function"
  && String.eqb (typeof (get_prop h it "arrayBuffer")) "function"
  && String.eqb (typeof (get_prop h it "lastModified")) "number"
  && String.eqb (typeof (get_prop h it "name")) "string"
  && String.eqb (typeof (get_prop h it "size")) "number"
  && String.eqb (typeof (get_prop h it "slice")) "function"
  && String.eqb (typeof (get_prop h it "text")) "function"
  && String.eqb (typeof (get_prop h it "type")) "string".
End Values.

Abbreviation heap := (list hobj) (only parsing).

(** ** The host: [@st-lib/is] and the JavaScript built-ins

    The program imports its type tests from the package [@st-lib/is] and uses
    the built-in conversions of the language.  Neither is part of the
    repository, so they are an interface here; nothing below depends on how
    a host implements it. *)
Class Host `{Carrier} := {
  (** [isString], [isNumber], [isDate], [isNumberString] of [@st-lib/is] *)
  isString : value → bool;
  isNumber : value → bool;
  isDate : value → bool;
  isNumberString : value → bool;
  (** [String(x)] *)
  String_ : value → string;
  (** [x.toString()] *)
  toString : value → string;
  (** unary plus, [+x] *)
  to_number : value → number;
  (** the time value of [new Date(x)] *)
  Date_time : value → number;
  (** [JSON.stringify(x)], as rendered inside a template literal *)
  JSON_stringify : heap → value → string;
}.

(** ** Schemas, paths, fields *)

(** A schema as the builder can receive it: a string (one of the ten tags,
    or any other string), an array literal, an object literal (its entries
    in enumeration order), or any other value ([shown] is its rendering in
    a template literal: ["undefined"], ["null"], ["42"], ...). *)
Local Unset Elimination Schemes.
Inductive schema :=
| STag (tag : string)
| SArray (items : list schema)
| SObject (entries : list (string * schema))
| SOther (shown : string).
Local Set Elimination Schemes.

(** The [type] property of a scalar field. *)
Inductive scalar_type := TString | TNumber | TBoolean | TDate | TFile.

(** A path component: an object key or an array index. *)
Inductive pkey := KStr (s : string) | KIdx (i : nat).

Definition pkey_to_string (k : pkey) : string :=
  match k with
  | KStr s => s
  | KIdx i => pretty i
  end.

(** [path.join('.')] *)
Definition join_path (path : list pkey) : string :=
  String.concat "." (pkey_to_string <$> path).

(** [o[key] = x] on an object under construction: an existing key keeps its
    place, a new key goes last. *)
Fixpoint assoc_set {A} (key : string) (x : A) (o : list (string * A)) : list (string * A) :=
  match o with
  | [] => [(key, x)]
  | (k, y) :: rest =>
      if String.eqb k key then (k, x) :: rest else (k, y) :: assoc_set key x rest
  end.

(** [o[key]] on such an object. *)
Fixpoint assoc_get {A} (key : string) (o : list (string * A)) : option A :=
  match o with
  | [] => None
  | (k, y) :: rest => if String.eqb k key then Some y else assoc_get key rest
  end.

(** What a call can do: return or throw. *)
Inductive outcome (A : Type) :=
| Return (a : A)
| Throw (msg : string).
Arguments Return {A} a.
Arguments Throw {A} msg.

#[export] Instance outcome_ret : MRet outcome := λ A a, Return a.
#[export] Instance outcome_bind : MBind outcome := λ A B f m,
  match m with
  | Return a => f a
  | Throw msg => Throw msg
  end.

Section Fields.
Context `{Host}.

(** A setter callback: called with a value, it acts on the heap.  The
    callbacks of the program write one property and call the callback of
    the parent; the callback of the caller is any function of this type. *)
Definition setter := value → heap → heap.

(** Computations of the builder: they read and extend the heap, and may
    throw (the heap reached so far is kept). *)
Definition M (A : Type) : Type := heap → outcome A * heap.

#[export] Instance M_ret : MRet M := λ A a h, (Return a, h).
#[export] Instance M_bind : MBind M := λ A B f m h,
  match m h with
  | (Return a, h') => f a h'
  | (Throw msg, h') => (Throw msg, h')
  end.

Definition throw {A} (msg : string) : M A := λ h, (Throw msg, h).
Definition new_cell (o : hobj) : M loc := λ h, let '(l, h') := alloc o h in (Return l, h').
Definition read_prop (v : value) (key : string) : M value := λ h, (Return (get_prop h v key), h).
Definition read_elements (l : loc) : M (list value) := λ h, (Return (elements h l), h).
Definition invoke (setValue : setter) (x : value) : M unit := λ h, (Return (), setValue x h).

(** A field is the closure the builder returns, represented by what the
    closure captures.  [ScalarField type path required value setValue] is the
    function [field] of [createScalarField] with its three properties;
    [ArrayField path v setValue fields] is the function [field] of
    [createArrayField], [v] being the backing array and [fields] the
    sub-fields built over its elements; [ObjectField o] is the plain object
    [o] of [createObjectField].  [ForeignField t] stands for any other value
    handed to the extractor, [t] being its [typeof]. *)
Local Unset Elimination Schemes.
Inductive field :=
| ScalarField (type : scalar_type) (path : list pkey) (required : bool)
    (value : value) (setValue : setter)
| ArrayField (path : list pkey) (v : loc) (setValue : setter) (fields : list field)
| ObjectField (o : list (string * field))
| ForeignField (typeof_ : string).
Local Set Elimination Schemes.

Definition createScalarField (type : scalar_type) (path : list pkey) (required : bool)
    (value : value) (setValue : setter) : field :=
  ScalarField type path required value setValue.

(** [field()] *)
Definition call0 (f : field) : M value :=
  match f with
  | ScalarField _ _ _ value _ => mret value
  | ArrayField _ v _ _ => mret (VRef v)
  | _ => throw "TypeError: field is not a function"
  end.

(** [field(newValue)] *)
Definition call1 (f : field) (newValue : value) : M value :=
  match f with
  | ScalarField _ _ _ _ setValue
  | ArrayField _ _ setValue _ => _ ← invoke setValue newValue; mret newValue
  | _ => throw "TypeError: field is not a function"
  end.

(** The recursive call [createField(type, ...)] with its schema fixed. *)
Definition builder := list pkey → value → setter → M field.

Fixpoint object_loop (type : list (string * builder)) (path : list pkey) (v : value)
    (setValue : setter) (o : list (string * field)) : M (list (string * field)) :=
  match type with
  | [] => mret o
  | (key, build) :: rest =>
      x ← read_prop v key;
      f ← build (path ++ [KStr key]) x (λ value h, setValue v (set_prop v key value h));
      object_loop rest path v setValue (assoc_set key f o)
  end.

(** [createObjectField]; [type] pairs each key of the schema, in enumeration
    order, with the builder for its sub-schema.  [v] is the raw value itself
    when that is object-typed. *)
Definition createObjectField (type : list (string * builder)) (path : list pkey)
    (value : value) (setValue : setter) : M field :=
  v ← (if is_object_typed value then mret value
       else l ← new_cell (HObj ∅); mret (VRef l));
  o ← object_loop type path v setValue [];
  mret (ObjectField o).

(** The callback of [v.map] in [createArrayField], element by element. *)
Fixpoint array_loop (build : builder) (path : list pkey) (v : loc) (setValue : setter)
    (elems : list value) (index : nat) : M (list field) :=
  match elems with
  | [] => mret []
  | value :: rest =>
      f ← build (path ++ [KIdx index]) value
            (λ newValue h, setValue (VRef v) (set_index v index newValue h));
      fs ← array_loop build path v setValue rest (S index);
      mret (f :: fs)
  end.

(** [createArrayField]; [build] is the builder for the first element of the
    schema array.  [v.map] visits the elements present when it is called:
    its callback only builds fields, and building writes to no existing
    cell. *)
Definition createArrayField (build : builder) (path : list pkey) (value : value)
    (setValue : setter) : M field :=
  v ← (λ h, match value with
            | VRef l => if Array_isArray h value then (Return l, h) else new_cell (HArr []) h
            | _ => new_cell (HArr []) h
            end);
  elems ← read_elements v;
  fields ← array_loop build path v setValue elems 0;
  mret (ArrayField path v setValue fields).

(** [date] *)
Definition date (inp : value) : value :=
  if isDate inp then inp
  else
    let o :=
      if isNumber inp || isNumberString inp then VDate (Date_time (VNum (to_number inp)))
      else if isString inp then VDate (Date_time inp)
      else VNull in
    if isDate o then o else VNull.

Definition unexpected_type (shown : string) : builder :=
  λ _ _ _, throw ("unexpected field type " +:+ shown).

(** [createField] *)
Fixpoint createField (type : schema) (path : list pkey) (value : value)
    (setValue : setter) {struct type} : M field :=
  match type with
  | STag tag =>
      if String.eqb tag "string" || String.eqb tag "string?" then
        mret (createScalarField TString path (String.eqb "string" tag)
                (if isString value || isNumber value || isDate value
                 then VStr (String_ value) else VNull) setValue)
      else if String.eqb tag "number" || String.eqb tag "number?" then
        mret (createScalarField TNumber path (String.eqb "number" tag)
                (if isNumber value then VStr (toString value)
                 else if isString value then value else VNull) setValue)
      else if String.eqb tag "boolean" || String.eqb tag "boolean?" then
        mret (createScalarField TBoolean path (String.eqb "boolean" tag)
                (match value with
                 | VBool _ => value
                 | VBoolean b => VBool b
                 | _ => VNull
                 end) setValue)
      else if String.eqb tag "date" || String.eqb tag "date?" then
        mret (createScalarField TDate path (String.eqb "date" tag) (date value) setValue)
      else if String.eqb tag "file" || String.eqb tag "file?" then
        λ h, (Return (createScalarField TFile path (String.eqb "file" tag)
                        (if isFile h value then value else VNull) setValue), h)
      else unexpected_type tag path value setValue
  | SArray items =>
      createArrayField
        (match items with
         | [] => unexpected_type "undefined"
         | type :: _ => createField type
         end) path value setValue
  | SObject entries =>
      createObjectField ((λ '(key, type), (key, createField type)) <$> entries)
        path value setValue
  | SOther shown => unexpected_type shown path value setValue
  end.

(** [noop], the callback of a form created without one. *)
Definition noop : setter := λ _ h, h.

(** [createForm(scheme)(data, setData)]; a caller that passes no [setData]
    gets [noop]. *)
Definition createForm (scheme : list (string * schema)) (data : value)
    (setData : setter) : M field :=
  createObjectField ((λ '(key, type), (key, createField type)) <$> scheme) [] data setData.

(** ** The mutation helpers of an array field *)

(** The built-in methods of arrays, on the array at [l]. *)
Definition with_array {A} (l : loc) (k : list value → A * list value) : M A := λ h,
  match h !! l with
  | Some (HArr elems) => let '(o, elems') := k elems in (Return o, <[l := HArr elems']> h)
  | _ => (Throw "TypeError: not an array", h)
  end.

(** [a.push(...items)]: appends, returns the new length. *)
Definition Array_push (l : loc) (items : list value) : M nat :=
  with_array l (λ elems, (length (elems ++ items), elems ++ items)).

(** [a.unshift(...items)]: prepends, returns the new length. *)
Definition Array_unshift (l : loc) (items : list value) : M nat :=
  with_array l (λ elems, (length (items ++ elems), items ++ elems)).

(** [a.pop()]: removes and returns the last element, [undefined] when empty. *)
Definition Array_pop (l : loc) : M value :=
  with_array l (λ elems,
    match last elems with
    | Some x => (x, removelast elems)
    | None => (VUndefined, elems)
    end).

(** [a.shift()]: removes and returns the first element, [undefined] when
    empty. *)
Definition Array_shift (l : loc) : M value :=
  with_array l (λ elems,
    match elems with
    | x :: rest => (x, rest)
    | [] => (VUndefined, elems)
    end).

(** Where [splice] starts: a negative [start] counts from the end, and the
    result is clamped to the array. *)
Definition splice_start (len : nat) (start : Z) : nat :=
  if bool_decide (start < 0)%Z then Z.to_nat (Z.max (Z.of_nat len + start) 0)
  else Z.to_nat (Z.min start (Z.of_nat len)).

(** How many elements [splice] removes: all the rest when the count is not
    passed, the count clamped to the rest otherwise. *)
Definition splice_count (len actualStart : nat) (deleteCount : option Z) : nat :=
  match deleteCount with
  | None => len - actualStart
  | Some dc => Z.to_nat (Z.min (Z.max dc 0) (Z.of_nat (len - actualStart)))
  end.

(** [a.splice(start, deleteCount, ...items)]; [deleteCount = None] is the
    call [a.splice(start)].  Returns the removed elements. *)
Definition Array_splice (l : loc) (start : Z) (deleteCount : option Z)
    (items : list value) : M (list value) :=
  with_array l (λ elems,
    let actualStart := splice_start (length elems) start in
    let count := splice_count (length elems) actualStart deleteCount in
    (take count (drop actualStart elems),
     take actualStart elems ++ items ++ drop (actualStart + count) elems)).

Definition not_an_array_field {A} : M A :=
  throw "TypeError: not a function".

(** [field.splice(from, deleteCount, ...items)]; [deleteCount = None] when the
    caller passes no count. *)
Definition splice (f : field) (from : Z) (deleteCount : option Z)
    (items : list value) : M (list value) :=
  match f with
  | ArrayField _ v _ _ =>
      o ← Array_splice v from (Some (default 0%Z deleteCount)) items;
      _ ← call1 f (VRef v);
      mret o
  | _ => not_an_array_field
  end.

(** [field.push(...items)] *)
Definition push (f : field) (items : list value) : M nat :=
  match f with
  | ArrayField _ v _ _ =>
      o ← Array_push v items;
      _ ← call1 f (VRef v);
      mret o
  | _ => not_an_array_field
  end.

(** [field.unshift(...items)] *)
Definition unshift (f : field) (items : list value) : M nat :=
  match f with
  | ArrayField _ v _ _ =>
      o ← Array_unshift v items;
      _ ← call1 f (VRef v);
      mret o
  | _ => not_an_array_field
  end.

(** [field.pop()] *)
Definition pop (f : field) : M value :=
  match f with
  | ArrayField _ v _ _ =>
      o ← Array_pop v;
      _ ← call1 f (VRef v);
      mret o
  | _ => not_an_array_field
  end.

(** [field.shift()] *)
Definition shift (f : field) : M value :=
  match f with
  | ArrayField _ v _ _ =>
      o ← Array_shift v;
      _ ← call1 f (VRef v);
      mret o
  | _ => not_an_array_field
  end.

(** ** Extraction *)

(** Extracted data: the scalars are values, arrays and objects are the
    freshly built ones, given by their content (the properties of an object
    in the order they were set). *)
Local Unset Elimination Schemes.
Inductive data :=
| DValue (v : value)
| DArr (items : list data)
| DObj (entries : list (string * data)).
Local Set Elimination Schemes.

(** The message of the validation error. *)
Definition required_error (h : heap) (path : list pkey) (val : value) : string :=
  "field " +:+ join_path path +:+ " is required; got " +:+ JSON_stringify h val.

(** The scalar extractors.  Each starts with [val = field()]; [path],
    [required] and [val] are the field's [path], [required] and the value
    that call returns. *)
Definition getNumberFieldData (h : heap) (path : list pkey) (required : bool)
    (val : value) : outcome data :=
  if isNumberString val then Return (DValue (VNum (to_number val)))
  else if required then Throw (required_error h path val)
  else Return (DValue VNull).

Definition getStringFieldData (h : heap) (path : list pkey) (required : bool)
    (val : value) : outcome data :=
  if nullish val && required then Throw (required_error h path val)
  else Return (DValue val).

Definition getBooleanFieldData (h : heap) (path : list pkey) (required : bool)
    (val : value) : outcome data :=
  if nullish val && required then Throw (required_error h path val)
  else Return (DValue val).

Definition getFileFieldData (h : heap) (path : list pkey) (required : bool)
    (val : value) : outcome data :=
  if isFile h val then Return (DValue val)
  else if required then Throw (required_error h path val)
  else Return (DValue VNull).

Definition getDateFieldData (h : heap) (path : list pkey) (required : bool)
    (val : value) : outcome data :=
  if isDate val then Return (DValue val)
  else if required then Throw (required_error h path val)
  else Return (DValue VNull).

(** [fields.map(cb)], stopping at the first call that throws. *)
Definition map_fields (cb : field → outcome data) : list field → outcome (list data) :=
  fix go fields :=
    match fields with
    | [] => Return []
    | f :: rest => d ← cb f; ds ← go rest; Return (d :: ds)
    end.

(** The loop of [getObjectFieldData]: [o[key] = getFieldData(field[key])] for
    each key of [field]. *)
Definition object_data (cb : field → outcome data) :
    list (string * field) → list (string * data) → outcome (list (string * data)) :=
  fix go field o :=
    match field with
    | [] => Return o
    | (key, f) :: rest => d ← cb f; go rest (assoc_set key d o)
    end.

(** [getFieldData], with [getArrayFieldData] and [getObjectFieldData]. *)
Fixpoint getFieldData (h : heap) (f : field) {struct f} : outcome data :=
  match f with
  | ScalarField type path required val _ =>
      match type with
      | TNumber => getNumberFieldData h path required val
      | TString => getStringFieldData h path required val
      | TBoolean => getBooleanFieldData h path required val
      | TDate => getDateFieldData h path required val
      | TFile => getFileFieldData h path required val
      end
  | ArrayField _ _ _ fields =>
      ds ← map_fields (getFieldData h) fields; Return (DArr ds)
  | ObjectField o =>
      kvs ← object_data (getFieldData h) o []; Return (DObj kvs)
  | ForeignField t => Throw ("unexpected field " +:+ t)
  end.

Definition getObjectFieldData (h : heap) (field : list (string * field)) : outcome data :=
  getFieldData h (ObjectField field).

(** [getFormData] *)
Definition getFormData (h : heap) (fields : list (string * field)) : outcome data :=
  getObjectFieldData h fields.

End Fields.

(** ** A host to run examples on

    [sample_host] decides the host interface on a fragment that can be
    evaluated: numbers are the integers and [NaN] ([None]), numeric strings
    are the decimal integer literals, and no calendar format is parsed (a
    string that is not a timestamp gives an invalid date).  It agrees with
    JavaScript on the strings, small integers, [null] and [undefined] the
    examples below use. *)
#[export] Instance sample_carrier : Carrier := {| number := option Z |}.

Definition parse_int (s : string) : option Z :=
  match s with
  | EmptyString => None
  | String c rest =>
      if Ascii.eqb c (Ascii.ascii_of_nat 45) then
        match rest with
        | EmptyString => None
        | _ => (λ n, - Z.of_nat n)%Z <$> digits_value 0 rest
        end
      else Z.of_nat <$> digits_value 0 s
  end.

Definition show_number (n : option Z) : string :=
  match n with
  | Some z => pretty z
  | None => "NaN"
  end.

Definition sample_String (v : value) : string :=
  match v with
  | VUndefined => "undefined"
  | VNull => "null"
  | VBool b | VBoolean b => if b then "true" else "false"
  | VNum n => show_number n
  | VStr s => s
  | VFun name => "function " +:+ name +:+ "() { [native code] }"
  | VDate t => match t with Some _ => "Date " +:+ show_number t | None => "Invalid Date" end
  | VRef _ => "[object Object]"
  end.

Definition sample_to_number (v : value) : option Z :=
  match v with
  | VNull => Some 0%Z
  | VBool b | VBoolean b => Some (if b then 1 else 0)%Z
  | VNum n | VDate n => n
  | VStr s => match s with EmptyString => Some 0%Z | _ => parse_int s end
  | _ => None
  end.

Definition sample_Date_time (v : value) : option Z :=
  match v with
  | VStr _ => None
  | _ => sample_to_number v
  end.

Definition quote_mark : string := String (Ascii.ascii_of_nat 34) EmptyString.

Definition sample_JSON (h : heap) (v : value) : string :=
  match v with
  | VUndefined | VFun _ => "undefined"
  | VStr s => quote_mark +:+ s +:+ quote_mark
  | VNum None => "null"
  | VDate t => quote_mark +:+ show_number t +:+ quote_mark
  | VRef l => match h !! l with Some (HArr _) => "[...]" | _ => "{...}" end
  | _ => sample_String v
  end.

#[export] Instance sample_host : Host := {|
  isString v := match v with VStr _ => true | _ => false end;
  isNumber v := match v with VNum (Some _) => true | _ => false end;
  isDate v := match v with VDate (Some _) => true | _ => false end;
  isNumberString v := match v with VStr s => bool_decide (is_Some (parse_int s)) | _ => false end;
  String_ := sample_String;
  toString := sample_String;
  to_number := sample_to_number;
  Date_time := sample_Date_time;
  JSON_stringify := sample_JSON;
|}.

(** A callback that records its calls: it appends its argument to the
    array at [log]. *)
Definition record `{Carrier} (log : loc) : value → heap → heap := λ x h,
  match h !! log with
  | Some (HArr calls) => <[log := HArr (calls ++ [x])]> h
  | _ => h
  end.

(** [field[key]] on an object field. *)
Definition subfield `{Host} (key : string) (f : field) : option field :=
  match f with
  | ObjectField o => assoc_get key o
  | _ => None
  end.

(** The same as steps of a program: reading a member that is not there
    gives [undefined], and the call that follows throws. *)
Definition member `{Host} (key : string) (f : field) : M field := λ h,
  match subfield key f with
  | Some x => (Return x, h)
  | None => (Throw ("TypeError: fields." +:+ key +:+ " is not a function"), h)
  end.

(** [getFieldData(field)] as a step of a program. *)
Definition extract `{Host} (f : field) : M data := λ h, (getFieldData h f, h).


(** *** Sample data

    A login form over the caller's object at address [0], with a recording
    callback on the array at address [1]. *)
Definition login_scheme : list (string * schema) :=
  [("email", STag "string"); ("password", STag "string")].

Definition login_heap : heap :=
  [HObj {["email" := VStr "old"]}; HArr []].

(** A tag list: the object at [0] holds the array at [1]; the callback
    records on the array at [2]. *)
Definition tags_scheme : list (string * schema) := [("tags", SArray [STag "string"])].

Definition tags_heap : heap :=
  [HObj {["tags" := VRef 1]}; HArr [VStr "a"; VStr "b"; VStr "c"]; HArr []].

(** A profile with every kind of field; the file at [2] has the eight
    members [isFile] looks for. *)
Definition profile_scheme : list (string * schema) :=
  [("name", STag "string"); ("age", STag "number"); ("zip", STag "number?");
   ("admin", STag "boolean"); ("born", STag "date"); ("photo", STag "file");
   ("tags", SArray [STag "string"]);
   ("address", SObject [("street", STag "string")])].

Definition profile_file : gmap string value :=
  {["stream" := VFun "stream"; "arrayBuffer" := VFun "arrayBuffer";
    "lastModified" := VNum (Some 1700000000000%Z); "name" := VStr "me.png";
    "size" := VNum (Some 2048%Z); "slice" := VFun "slice"; "text" := VFun "text";
    "type" := VStr "image/png"]}.

Definition profile_props : gmap string value :=
  {["name" := VStr "Ada"; "age" := VNum (Some 36%Z); "zip" := VStr "1010";
    "admin" := VBool false; "born" := VDate (Some 0%Z); "photo" := VRef 2;
    "tags" := VRef 1; "address" := VRef 3]}.

Definition profile_heap : heap :=
  [HObj profile_props; HArr [VStr "a"; VStr "b"]; HObj profile_file;
   HObj {["street" := VStr "Main"]}].

(** ** Vocabulary of the properties *)

Section Vocabulary.
Context `{Host}.

(** The scalar tags: the field type and the [required] flag each stands
    for. *)
Definition scalar_tag (tag : string) : option (scalar_type * bool) :=
  if String.eqb tag "string" then Some (TString, true)
  else if String.eqb tag "string?" then Some (TString, false)
  else if String.eqb tag "number" then Some (TNumber, true)
  else if String.eqb tag "number?" then Some (TNumber, false)
  else if String.eqb tag "boolean" then Some (TBoolean, true)
  else if String.eqb tag "boolean?" then Some (TBoolean, false)
  else if String.eqb tag "date" then Some (TDate, true)
  else if String.eqb tag "date?" then Some (TDate, false)
  else if String.eqb tag "file" then Some (TFile, true)
  else if String.eqb tag "file?" then Some (TFile, false)
  else None.

(** The value a scalar field of each type stores for a raw backing value. *)
Definition stored (h : heap) (type : scalar_type) (raw : value) : value :=
  match type with
  | TString =>
      if isString raw || isNumber raw || isDate raw then VStr (String_ raw) else VNull
  | TNumber =>
      if isNumber raw then VStr (toString raw)
      else if isString raw then raw else VNull
  | TBoolean =>
      match raw with
      | VBool _ => raw
      | VBoolean b => VBool b
      | _ => VNull
      end
  | TDate => date raw
  | TFile => if isFile h raw then raw else VNull
  end.

(** The setter a callable field invokes. *)
Definition wired (setValue : setter) (f : field) : Prop :=
  match f with
  | ScalarField _ _ _ _ s | ArrayField _ _ s _ => s = setValue
  | ObjectField _ => True
  | ForeignField _ => False
  end.

Definition callable (f : field) : Prop :=
  match f with
  | ScalarField _ _ _ _ _ | ArrayField _ _ _ _ => True
  | _ => False
  end.

(** The backing array of a field built by [createArrayField]: the raw value
    itself when it is an array, a fresh cell otherwise. *)
Definition backing_array (h : heap) (value : value) : loc :=
  match value with
  | VRef l => if Array_isArray h value then l else length h
  | _ => length h
  end.

(** The backing object of a field built by [createObjectField]: the raw
    value itself when it is object-typed, a fresh cell otherwise. *)
Definition backing_object (h : heap) (raw : value) : value :=
  if is_object_typed raw then raw else VRef (length h).

(** The ten scalar tags of the schema vocabulary. *)
Definition scalar_tags : list string :=
  ["string"; "string?"; "number"; "number?"; "boolean"; "boolean?";
   "date"; "date?"; "file"; "file?"].

(** Well-formed schemas: a scalar tag, an array of exactly one well-formed
    schema, or an object (its keys distinct) of well-formed schemas. *)
Local Unset Elimination Schemes.
Inductive wf_schema : schema → Prop :=
| wf_tag (tag : string) : tag ∈ scalar_tags → wf_schema (STag tag)
| wf_array (type : schema) : wf_schema type → wf_schema (SArray [type])
| wf_object (entries : list (string * schema)) :
    NoDup entries.*1 → Forall (λ kv, wf_schema kv.2) entries → wf_schema (SObject entries).
Local Set Elimination Schemes.



Definition total (build : builder) : Prop :=
  ∀ path value setValue h, ∃ f h', build path value setValue h = (Return f, h').

(** The setter [createObjectField] hands to the sub-field at [key]. *)
Definition key_setter (setValue : setter) (v : value) (key : string) : setter :=
  λ value h, setValue v (set_prop v key value h).

(** The test a scalar type applies to a raw backing value before it keeps
    (a conversion of) it. *)
Definition accepts (h : heap) (type : scalar_type) (raw : value) : bool :=
  match type with
  | TString => isString raw || isNumber raw || isDate raw
  | TNumber => isNumber raw || isString raw
  | TBoolean => match raw with VBool _ | VBoolean _ => true | _ => false end
  | TDate => isDate raw || isNumber raw || isNumberString raw || isString raw
  | TFile => isFile h raw
  end.

(** What the program relies on about its host: the four tests of
    [@st-lib/is] are type guards (a value that passes has the tested type),
    a primitive string passes [isString], and [String] of a primitive string
    is that string. *)
Class HostLaws : Prop := {
  isString_guard : ∀ v, isString v = true → ∃ s, v = VStr s;
  isNumber_guard : ∀ v, isNumber v = true → ∃ n, v = VNum n;
  isDate_guard : ∀ v, isDate v = true → ∃ t, v = VDate t;
  isNumberString_guard : ∀ v, isNumberString v = true → ∃ s, v = VStr s;
  isString_string : ∀ s, isString (VStr s) = true;
  String_string : ∀ s, String_ (VStr s) = s;
}.

(** The scalar and foreign fields of a field tree, in the order the
    extractor meets them: the keys of an object field in enumeration order,
    the sub-fields of an array field in index order, depth first. *)
Fixpoint leaves (f : field) : list field :=
  match f with
  | ScalarField _ _ _ _ _ | ForeignField _ => [f]
  | ArrayField _ _ _ fields =>
      (fix go (l : list field) : list field :=
         match l with
         | [] => []
         | x :: r => leaves x ++ go r
         end) fields
  | ObjectField o =>
      (fix go (l : list (string * field)) : list field :=
         match l with
         | [] => []
         | kv :: r => leaves kv.2 ++ go r
         end) o
  end.

(** The error of the first field of a list whose own extraction throws. *)
Fixpoint first_failure (h : heap) (fs : list field) : option string :=
  match fs with
  | [] => None
  | f :: rest =>
      match getFieldData h f with
      | Throw msg => Some msg
      | Return _ => first_failure h rest
      end
  end.

(** The field reached from [f] along a path of keys and indices. *)
Fixpoint descend (p : list pkey) (f : field) : option field :=
  match p with
  | [] => Some f
  | k :: p' =>
      match k, f with
      | KStr key, ObjectField o => assoc_get key o ≫= descend p'
      | KIdx index, ArrayField _ _ _ fields => fields !! index ≫= descend p'
      | _, _ => None
      end
  end.

(** The [path] property of a callable field. *)
Definition field_path (f : field) : option (list pkey) :=
  match f with
  | ScalarField _ path _ _ _ | ArrayField path _ _ _ => Some path
  | _ => None
  end.

(** The tags of required scalars. *)
Definition required_tags : list string := ["string"; "number"; "boolean"; "date"; "file"].

(** A builder gives every callable field of the tree it returns the path
    that leads to it. *)
Definition paths_from (path : list pkey) (f0 : field) : Prop :=
  ∀ p f q, descend p f0 = Some f → field_path f = Some q → q = path ++ p.

Definition keeps_paths (build : builder) : Prop :=
  ∀ path value setValue h f0 h',
    build path value setValue h = (Return f0, h') → paths_from path f0.

(** *** Backing values that match a schema *)

Definition string_tags : list string := ["string"; "string?"].
Definition number_tags : list string := ["number"; "number?"].
Definition boolean_tags : list string := ["boolean"; "boolean?"].
Definition date_tags : list string := ["date"; "date?"].
Definition file_tags : list string := ["file"; "file?"].

(** A number the host prints as a numeric string that reads back as the
    same number. *)
Definition prints_back (n : number) : Prop :=
  isNumber (VNum n) = true
  ∧ isNumberString (VStr (toString (VNum n))) = true
  ∧ to_number (VStr (toString (VNum n))) = n.

(** [well_typed h type value]: in the heap [h], [value] is a fully populated
    value of the shape [type] describes: a string for a string tag; a number
    (or the numeric string a form holds for it) for a number tag; a boolean,
    a valid date, a file for the other tags; an array of such values for an
    array schema; an object with exactly the keys of the schema, each
    holding such a value, for an object schema. *)
Local Unset Elimination Schemes.

Local Set Elimination Schemes.


(** *** Induction on schemas and on fields

    Both types nest lists of themselves, so their induction principles give
    the property of every member of those lists. *)

Fixpoint schema_induction (P : schema → Prop)
    (Htag : ∀ tag, P (STag tag))
    (Harray : ∀ items, Forall P items → P (SArray items))
    (Hobject : ∀ entries, Forall (λ kv, P kv.2) entries → P (SObject entries))
    (Hother : ∀ shown, P (SOther shown))
    (type : schema) {struct type} : P type :=
  match type with
  | STag tag => Htag tag
  | SArray items =>
      Harray items
        ((fix go (l : list schema) : Forall P l :=
            match l with
            | [] => List.Forall_nil P
            | t :: r => @List.Forall_cons _ P t r (schema_induction P Htag Harray Hobject Hother t) (go r)
            end) items)
  | SObject entries =>
      Hobject entries
        ((fix go (l : list (string * schema)) : Forall (λ kv, P kv.2) l :=
            match l with
            | [] => List.Forall_nil _
            | kv :: r =>
                @List.Forall_cons _ (λ kv, P kv.2) kv r
                  (schema_induction P Htag Harray Hobject Hother kv.2) (go r)
            end) entries)
  | SOther shown => Hother shown
  end.

Fixpoint field_induction (P : field → Prop)
    (Hscalar : ∀ type path required value setValue,
       P (ScalarField type path required value setValue))
    (Harray : ∀ path v setValue fields, Forall P fields →
       P (ArrayField path v setValue fields))
    (Hobject : ∀ o, Forall (λ kv, P kv.2) o → P (ObjectField o))
    (Hforeign : ∀ t, P (ForeignField t))
    (f : field) {struct f} : P f :=
  match f with
  | ScalarField type path required value setValue =>
      Hscalar type path required value setValue
  | ArrayField path v setValue fields =>
      Harray path v setValue fields
        ((fix go (l : list field) : Forall P l :=
            match l with
            | [] => List.Forall_nil P
            | x :: r =>
                @List.Forall_cons _ P x r
                  (field_induction P Hscalar Harray Hobject Hforeign x) (go r)
            end) fields)
  | ObjectField o =>
      Hobject o
        ((fix go (l : list (string * field)) : Forall (λ kv, P kv.2) l :=
            match l with
            | [] => List.Forall_nil _
            | kv :: r =>
                @List.Forall_cons _ (λ kv, P kv.2) kv r
                  (field_induction P Hscalar Harray Hobject Hforeign kv.2) (go r)
            end) o)
  | ForeignField t => Hforeign t
  end.

End Vocabulary.

(** ** Enumerating an array field *)

Section Enumeration.
Context `{Host}.

(** [[...field]]: the iteration protocol of an array field yields the
    sub-fields built with it. *)
Definition iterate (f : field) : outcome (list field) :=
  match f with
  | ArrayField _ _ _ fields => Return fields
  | _ => Throw "TypeError: field is not iterable"
  end.

(** [field.map(cb)]: [cb] receives each sub-field and its index. *)
Definition field_map {R} (f : field) (cb : field → nat → R) : outcome (list R) :=
  match f with
  | ArrayField _ _ _ fields => Return (imap (λ index sub, cb sub index) fields)
  | _ => Throw "TypeError: field.map is not a function"
  end.



(** *** More vocabulary *)

(** The setter [createArrayField] hands to the sub-field at [index]. *)
Definition index_setter (setValue : setter) (v : loc) (index : nat) : setter :=
  λ newValue h, setValue (VRef v) (set_index v index newValue h).

(** The cells the builder allocates: [{}] and [[]]. *)
Definition empty_cell (c : hobj) : Prop := c = HObj ∅ ∨ c = HArr [].

(** [h'] is [h] followed by freshly allocated empty cells. *)
Definition grows (h h' : heap) : Prop :=
  ∃ ext, h' = h ++ ext ∧ Forall empty_cell ext.

Definition allocates_empty (build : builder) : Prop :=
  ∀ path value setValue h r h',
    build path value setValue h = (r, h') → grows h h'.

(** The stored value of a scalar field of each type: [null], or a value of
    the type the field edits (a number field edits a string). *)
Definition buffer_typed (h : heap) (type : scalar_type) (val : value) : Prop :=
  val = VNull
  ∨ match type with
    | TString | TNumber => ∃ s, val = VStr s
    | TBoolean => ∃ b, val = VBool b
    | TDate => ∃ t, val = VDate t ∧ isDate val = true
    | TFile => isFile h val = true
    end.

(** Data of the shape a schema describes: for a scalar tag a value of its
    type, or [null] when the tag is optional; for an array schema an array
    of data of the element's shape; for an object schema an object with the
    keys of the schema, in their order, each holding data of its shape. *)
Local Unset Elimination Schemes.
Inductive conforms (h : heap) : schema → data → Prop :=
| cf_null (tag : string) (type : scalar_type) :
    scalar_tag tag = Some (type, false) → conforms h (STag tag) (DValue VNull)
| cf_string (tag s : string) :
    tag ∈ string_tags → conforms h (STag tag) (DValue (VStr s))
| cf_number (tag : string) (n : number) :
    tag ∈ number_tags → conforms h (STag tag) (DValue (VNum n))
| cf_boolean (tag : string) (b : bool) :
    tag ∈ boolean_tags → conforms h (STag tag) (DValue (VBool b))
| cf_date (tag : string) (t : number) :
    tag ∈ date_tags → isDate (VDate t) = true → conforms h (STag tag) (DValue (VDate t))
| cf_file (tag : string) (v : value) :
    tag ∈ file_tags → isFile h v = true → conforms h (STag tag) (DValue v)
| cf_array (type : schema) (rest : list schema) (items : list data) :
    Forall (conforms h type) items → conforms h (SArray (type :: rest)) (DArr items)
| cf_object (entries : list (string * schema)) (kvs : list (string * data)) :
    Forall2 (λ kv kd, kv.1 = kd.1 ∧ conforms h kv.2 kd.2) entries kvs →
    conforms h (SObject entries) (DObj kvs).
Local Set Elimination Schemes.

(** The tags of each scalar type. *)
Definition tags_of (type : scalar_type) : list string :=
  match type with
  | TString => string_tags
  | TNumber => number_tags
  | TBoolean => boolean_tags
  | TDate => date_tags
  | TFile => file_tags
  end.

(** [f] is a field the builder returns for the schema [type]. *)
Definition built_by (type : schema) (f : field) : Prop :=
  ∃ path value setValue h h', createField type path value setValue h = (Return f, h').

(** A field tree whose scalar fields hold primitive values only: it has no
    file field and no date field.  (Those two hold an object of the caller,
    a file or a [Date], which the extractor tests again when it reads the
    field, and which the caller can change in the meantime.) *)
Definition primitive_leaves (f : field) : Prop :=
  Forall (λ leaf, match leaf with
                  | ScalarField (TFile | TDate) _ _ _ _ => False
                  | _ => True
                  end) (leaves f).

(** *** The part of JavaScript the model of objects decides

    The heap holds the own properties of ordinary objects and the elements
    of arrays.  A JavaScript object has more than that.  It inherits the
    members of [Object.prototype], among them the accessor [__proto__]: the
    assignment [o["__proto__"] = x] sets the prototype of [o] and adds no
    key, where [assoc_set] and [set_prop] add one, and the read of an
    inherited name gives the inherited member, where [get_prop] gives
    [undefined].  An array has a [length] and may carry named properties,
    as may a [Date] or a boxed boolean, none of which the heap holds.  A
    slot of an array may be empty: it reads as [undefined], and an array
    here holds [undefined] in its place, but [map] and [forEach] pass over
    it.  The properties that depend on any of this are stated on the inputs
    delimited below, where the model and JavaScript agree. *)

(** The names an ordinary object inherits from [Object.prototype]. *)
Definition inherited_names : list string :=
  ["__proto__"; "constructor"; "hasOwnProperty"; "isPrototypeOf";
   "propertyIsEnumerable"; "toLocaleString"; "toString"; "valueOf";
   "__defineGetter__"; "__defineSetter__"; "__lookupGetter__"; "__lookupSetter__"].

(** An ordinary object: a reference to a cell of own properties. *)
Definition plain (h : heap) (v : value) : Prop :=
  ∃ l props, v = VRef l ∧ h !! l = Some (HObj props).

(** A schema none of whose objects, at any depth, has the key
    [__proto__]. *)
Local Unset Elimination Schemes.

(** A key that is a name: not an array index, which JavaScript enumerates
    before the names whatever the order in which the keys were added, and
    not [__proto__].  An object to which names are added enumerates them in
    the order of their addition, as the lists of fields and of data do. *)
Definition named (key : string) : Prop :=
  index_of_key key = None ∧ key ≠ "__proto__".

(** A schema all of whose objects, at any depth, are keyed by names. *)
Inductive named_keys : schema → Prop :=
| nk_tag (tag : string) : named_keys (STag tag)
| nk_array (items : list schema) : Forall named_keys items → named_keys (SArray items)
| nk_object (entries : list (string * schema)) :
    Forall named entries.*1 →
    Forall (λ kv, named_keys kv.2) entries →
    named_keys (SObject entries)
| nk_other (shown : string) : named_keys (SOther shown).

(** [dense h type value]: along the schema [type], the raw value [value]
    holds, where the builder looks for an array, an array without empty or
    [undefined] slots or no array at all, and where it looks for an object,
    an ordinary object or a value that is not object-typed. *)
Inductive dense (h : heap) : schema → value → Prop :=
| dense_tag (tag : string) (v : value) : dense h (STag tag) v
| dense_array (type : schema) (rest : list schema) (l : loc) (elems : list value) :
    h !! l = Some (HArr elems) →
    VUndefined ∉ elems →
    Forall (dense h type) elems →
    dense h (SArray (type :: rest)) (VRef l)
| dense_no_array (items : list schema) (v : value) :
    Array_isArray h v = false → dense h (SArray items) v
| dense_object (entries : list (string * schema)) (l : loc)
    (props : gmap string value) :
    h !! l = Some (HObj props) →
    Forall (λ kv, dense h kv.2 (default VUndefined (props !! kv.1))) entries →
    dense h (SObject entries) (VRef l)
| dense_no_object (entries : list (string * schema)) (v : value) :
    is_object_typed v = false → dense h (SObject entries) v
| dense_other (shown : string) (v : value) : dense h (SOther shown) v.
Local Set Elimination Schemes.

End Enumeration.

(** *** Sample fields *)

(** The login form built over the object at [0] of [login_heap], the
    callback recording on the array at [1]. *)
Definition login_form : field :=
  ObjectField
    [("email", ScalarField TString [KStr "email"] true (VStr "old")
                 (key_setter (record 1) (VRef 0) "email"));
     ("password", ScalarField TString [KStr "password"] true VNull
                    (key_setter (record 1) (VRef 0) "password"))].

(** The array field built over the array at [1] of [tags_heap], the
    callback recording on the array at [2]. *)
Definition tags_field : field :=
  ArrayField [KStr "tags"] 1 (record 2)
    [ScalarField TString [KStr "tags"; KIdx 0] true (VStr "a")
       (index_setter (record 2) 1 0);
     ScalarField TString [KStr "tags"; KIdx 1] true (VStr "b")
       (index_setter (record 2) 1 1);
     ScalarField TString [KStr "tags"; KIdx 2] true (VStr "c")
       (index_setter (record 2) 1 2)].

(** The tags form built over the object at [0] of [tags_heap]. *)
Definition tags_form : field :=
  ObjectField
    [("tags",
      ArrayField [KStr "tags"] 1 (key_setter (record 2) (VRef 0) "tags")
        [ScalarField TString [KStr "tags"; KIdx 0] true (VStr "a")
           (index_setter (key_setter (record 2) (VRef 0) "tags") 1 0);
         ScalarField TString [KStr "tags"; KIdx 1] true (VStr "b")
           (index_setter (key_setter (record 2) (VRef 0) "tags") 1 1);
         ScalarField TString [KStr "tags"; KIdx 2] true (VStr "c")
           (index_setter (key_setter (record 2) (VRef 0) "tags") 1 2)])].

(** * Properties *)

Section Properties.
Context `{Host}.

(** ** Running the builder *)

Lemma bind_Return {A B} (m : M A) (k : A → M B) (h h' : heap) (b : B) :
  (m ≫= k) h = (Return b, h') →
  ∃ a h1, m h = (Return a, h1) ∧ k a h1 = (Return b, h').
Proof.
  unfold mbind, M_bind. destruct (m h) as [[a|msg] h1]; [eauto|discriminate].
Qed.

Lemma bind_run {A B} (m : M A) (k : A → M B) (h h1 : heap) (a : A) :
  m h = (Return a, h1) → (m ≫= k) h = k a h1.
Proof. unfold mbind, M_bind. by intros ->. Qed.

Lemma bind_Throw {A B} (m : M A) (k : A → M B) (h h1 : heap) (msg : string) :
  m h = (Throw msg, h1) → (m ≫= k) h = (Throw msg, h1).
Proof. unfold mbind, M_bind. by intros ->. Qed.

Lemma wired_call1 (setValue : setter) (f : field) (x : value) (h : heap) :
  wired setValue f → callable f → call1 f x h = (Return x, setValue x h).
Proof. destruct f; simpl; try done; by intros ->. Qed.

Lemma createArrayField_Return (build : builder) (path : list pkey) (value : value)
    (setValue : setter) (h h1 : heap) (f : field) :
  createArrayField build path value setValue h = (Return f, h1) →
  ∃ fields, f = ArrayField path (backing_array h value) setValue fields.
Proof.
  unfold createArrayField. intros Hrun.
  apply bind_Return in Hrun as (v & h2 & Hv & Hrun).
  apply bind_Return in Hrun as (elems & h3 & _ & Hrun).
  apply bind_Return in Hrun as (fields & h4 & _ & Hrun).
  injection Hrun as <- <-. exists fields. f_equal.
  unfold backing_array, new_cell, alloc in *.
  destruct value; try (by injection Hv as <- <-).
  destruct (Array_isArray h (VRef l)); by injection Hv as <- <-.
Qed.

Lemma createField_STag (tag : string) (path : list pkey) (value : value)
    (setValue : setter) (h : heap) :
  createField (STag tag) path value setValue h =
    match scalar_tag tag with
    | Some (type, required) =>
        (Return (ScalarField type path required (stored h type value) setValue), h)
    | None => (Throw ("unexpected field type " +:+ tag), h)
    end.
Proof.
  unfold createField, scalar_tag.
  destruct (String.eqb_spec tag "string") as [->|_]; [reflexivity|].
  destruct (String.eqb_spec tag "string?") as [->|_]; [reflexivity|].
  destruct (String.eqb_spec tag "number") as [->|_]; [reflexivity|].
  destruct (String.eqb_spec tag "number?") as [->|_]; [reflexivity|].
  destruct (String.eqb_spec tag "boolean") as [->|_]; [reflexivity|].
  destruct (String.eqb_spec tag "boolean?") as [->|_]; [reflexivity|].
  destruct (String.eqb_spec tag "date") as [->|_]; [reflexivity|].
  destruct (String.eqb_spec tag "date?") as [->|_]; [reflexivity|].
  destruct (String.eqb_spec tag "file") as [->|_]; [reflexivity|].
  destruct (String.eqb_spec tag "file?") as [->|_]; reflexivity.
Qed.

Lemma createField_wired (type : schema) (path : list pkey) (value : value)
    (setValue : setter) (h h1 : heap) (f : field) :
  createField type path value setValue h = (Return f, h1) → wired setValue f.
Proof.
  destruct type as [tag|items|entries|shown]; [rewrite createField_STag|simpl..].
  - destruct (scalar_tag tag) as [[ty req]|]; [|discriminate]. by intros [= <- <-].
  - intros (fields & ->)%createArrayField_Return. done.
  - unfold createObjectField. intros Hrun.
    apply bind_Return in Hrun as (v & h2 & _ & Hrun).
    apply bind_Return in Hrun as (o & h3 & _ & Hrun).
    by injection Hrun as <- <-.
  - discriminate.
Qed.

Lemma assoc_get_set {A} (key key' : string) (x : A) (o : list (string * A)) :
  assoc_get key' (assoc_set key x o)
  = if String.eqb key key' then Some x else assoc_get key' o.
Proof.
  induction o as [|[k y] o IH]; simpl.
  - done.
  - destruct (String.eqb_spec k key) as [->|Hk]; simpl.
    + destruct (String.eqb key key'); done.
    + rewrite IH. destruct (String.eqb_spec k key') as [->|]; [|done].
      by destruct (String.eqb_spec key key') as [->|].
Qed.

(** *** The builder only extends the heap *)







(** *** The builder returns on well-formed schemas *)

Lemma object_loop_total (type : list (string * builder)) (path : list pkey) (v : value)
    (setValue : setter) (o : list (string * field)) (h : heap) :
  Forall (λ kb, total kb.2) type →
  ∃ o' h', object_loop type path v setValue o h = (Return o', h').
Proof.
  intros Hall. revert o h.
  induction Hall as [|[key build] type Hb _ IH]; intros o h; simpl.
  - by eexists _, _.
  - unfold read_prop at 1. unfold mbind at 1, M_bind at 1.
    destruct (Hb (path ++ [KStr key]) (get_prop h v key) (key_setter setValue v key) h)
      as (f & h1 & Hbuild).
    unfold key_setter in Hbuild. erewrite bind_run; [|exact Hbuild]. apply IH.
Qed.

Lemma createObjectField_total (type : list (string * builder)) :
  Forall (λ kb, total kb.2) type → total (createObjectField type).
Proof.
  intros Hall path value setValue h. unfold createObjectField.
  destruct (is_object_typed value).
  - destruct (object_loop_total type path value setValue [] h Hall) as (o & h1 & Hloop).
    exists (ObjectField o), h1.
    erewrite bind_run; [|reflexivity]. by erewrite bind_run.
  - destruct (object_loop_total type path (VRef (length h)) setValue []
                (h ++ [HObj ∅]) Hall) as (o & h1 & Hloop).
    exists (ObjectField o), h1.
    erewrite bind_run; [|reflexivity]. by erewrite bind_run.
Qed.

Lemma array_loop_total (build : builder) (path : list pkey) (v : loc)
    (setValue : setter) (elems : list value) (index : nat) (h : heap) :
  total build →
  ∃ fs h', array_loop build path v setValue elems index h = (Return fs, h').
Proof.
  intros Hb. revert index h.
  induction elems as [|x elems IH]; intros index h; simpl.
  - by eexists _, _.
  - destruct (Hb (path ++ [KIdx index]) x
                (λ newValue h, setValue (VRef v) (set_index v index newValue h)) h)
      as (f & h1 & Hbuild).
    destruct (IH (S index) h1) as (fs & h2 & Hloop).
    exists (f :: fs), h2.
    erewrite bind_run; [|exact Hbuild]. by erewrite bind_run.
Qed.

Lemma array_cell (value : value) (h : heap) :
  ∃ h1, (match value with
         | VRef l => if Array_isArray h value then (Return l, h) else new_cell (HArr []) h
         | _ => new_cell (HArr []) h
         end) = (Return (backing_array h value), h1)
        ∧ h1 = (if Array_isArray h value then h else h ++ [HArr []]).
Proof.
  unfold backing_array, new_cell, alloc.
  destruct value; simpl; try by eexists.
  destruct (h !! l) as [[props|elems]|]; by eexists.
Qed.

Lemma createArrayField_total (build : builder) :
  total build → total (createArrayField build).
Proof.
  intros Hb path value setValue h. unfold createArrayField.
  destruct (array_cell value h) as (h1 & Hv & _).
  destruct (array_loop_total build path (backing_array h value) setValue
              (elements h1 (backing_array h value)) 0 h1 Hb) as (fs & h2 & Hloop).
  eexists _, h2.
  erewrite bind_run; [|exact Hv].
  erewrite bind_run; [|reflexivity]. by erewrite bind_run.
Qed.

Lemma scalar_tag_recognised (tag : string) :
  tag ∈ scalar_tags ↔ is_Some (scalar_tag tag).
Proof.
  unfold scalar_tags, scalar_tag. rewrite !elem_of_cons, elem_of_nil.
  split.
  - intros Htag. repeat (destruct Htag as [->|Htag]; [by (simpl; eexists)|]). done.
  - repeat match goal with
           | |- context [String.eqb tag ?s] =>
               destruct (String.eqb_spec tag s) as [->|_]; [by eauto 13|]
           end.
    by intros [? ?].
Qed.

Lemma createField_total (type : schema) : wf_schema type → total (createField type).
Proof.
  induction type as [tag|items IH|entries IH|shown] using schema_induction;
    intros Hwf; inversion Hwf as [tag' Htag|t Ht|es Hkeys Hall]; subst.
  - intros path value setValue h. rewrite createField_STag.
    apply scalar_tag_recognised in Htag as [[ty req] ->]. by eexists _, _.
  - simpl. apply createArrayField_total.
    apply Forall_cons in IH as [IH _]. by apply IH.
  - simpl. apply createObjectField_total.
    apply Forall_fmap. rewrite Forall_forall in *.
    intros [key t] Hin. simpl. apply (IH _ Hin). by apply (Hall _ Hin).
Qed.

(** *** The setters of the sub-fields of an object field *)


(** ** Calling a field *)

(** C1 (as amended): calling a scalar field with one argument returns that
    argument and invokes the setter exactly once, with that argument: the
    heap after the call is the one a single invocation of the setter leaves,
    and a recording callback has recorded exactly the one call.  The field's
    own stored value is not changed by the call: a zero-argument call made
    right after it returns the value the field was built with. *)
Theorem scalar_field_call (type : scalar_type) (path : list pkey) (required : bool)
    (value newValue : value) (setValue : setter) (h : heap) :
  call1 (createScalarField type path required value setValue) newValue h
    = (Return newValue, setValue newValue h)
  ∧ call0 (createScalarField type path required value setValue) (setValue newValue h)
    = (Return value, setValue newValue h)
  ∧ ∀ log calls, h !! log = Some (HArr calls) →
      elements (snd (call1 (createScalarField type path required value (record log))
                       newValue h)) log
      = calls ++ [newValue].
Proof.
  split; [reflexivity|]. split; [reflexivity|].
  intros log calls Hlog. unfold call1, createScalarField, invoke, record, elements.
  cbv [mbind M_bind mret M_ret snd]. rewrite Hlog.
  rewrite list_lookup_insert_eq; [done|]. by eapply lookup_lt_Some.
Qed.

(** C3: extraction of a number field reads the stored buffer; a numeric
    string gives the parsed number; otherwise the extraction throws the
    validation error, naming the path and the raw value, exactly when the
    field is required, and gives [null] when it is not. *)
Theorem number_field_extraction (path : list pkey) (required : bool) (val : value)
    (setValue : setter) (h : heap) :
  call0 (ScalarField TNumber path required val setValue) h = (Return val, h)
  ∧ getFieldData h (ScalarField TNumber path required val setValue)
    = (if isNumberString val then Return (DValue (VNum (to_number val)))
       else if required
            then Throw ("field " +:+ join_path path +:+ " is required; got "
                        +:+ JSON_stringify h val)
            else Return (DValue VNull))
  ∧ ((∃ msg, getFieldData h (ScalarField TNumber path required val setValue) = Throw msg)
     ↔ isNumberString val = false ∧ required = true).
Proof.
  split; [reflexivity|]. split; [reflexivity|].
  cbn. unfold getNumberFieldData.
  destruct (isNumberString val), required; split;
    first [ by intros [msg ?] | by intros [? ?] | by eauto ].
Qed.

(** C8: an array field called with one argument invokes the setter with that
    argument and returns it, and keeps its backing array: zero-argument
    calls, before and after, return the array captured when the field was
    built (the raw value when that was an array, the fresh array otherwise),
    whatever was passed. *)
Theorem array_field_call (items : list schema) (path : list pkey) (value : value)
    (setValue : setter) (h h1 : heap) (f : field) :
  createField (SArray items) path value setValue h = (Return f, h1) →
  (Array_isArray h value = true → VRef (backing_array h value) = value)
  ∧ call0 f h1 = (Return (VRef (backing_array h value)), h1)
  ∧ ∀ newValue h2,
      call1 f newValue h2 = (Return newValue, setValue newValue h2)
      ∧ ∀ h3, call0 f h3 = (Return (VRef (backing_array h value)), h3).
Proof.
  simpl. intros (fields & ->)%createArrayField_Return. split.
  - unfold backing_array. destruct value; try discriminate. by intros ->.
  - done.
Qed.

(** ** Building *)

Lemma stored_rejected (h : heap) (type : scalar_type) (raw : value) :
  accepts h type raw = false → stored h type raw = VNull.
Proof.
  destruct type; simpl.
  - by intros ->.
  - intros [-> ->]%orb_false_elim. done.
  - by destruct raw.
  - intros [[[Hd Hn]%orb_false_elim Hns]%orb_false_elim Hs]%orb_false_elim.
    unfold date. rewrite Hd, Hn, Hns, Hs. simpl. by destruct (isDate VNull).
  - by intros ->.
Qed.

Lemma createField_object_fallback (entries : list (string * schema)) (path : list pkey)
    (value : value) (setValue : setter) (h : heap) :
  is_object_typed value = false →
  createField (SObject entries) path value setValue h
  = createField (SObject entries) path (VRef (length h)) setValue (h ++ [HObj ∅]).
Proof.
  intros Hobj. simpl. unfold createObjectField. by rewrite Hobj.
Qed.

(** C5: on a well-formed schema the builder returns a field, whatever the
    backing value and the heap; so a build that throws was given a schema
    outside the vocabulary.  A raw value a scalar type does not accept is
    stored as [null]; over a value that is not an array an array field is
    built on a fresh empty array, with no sub-fields; over a value that is
    not object-typed an object field is built as over a fresh empty
    object. *)
Theorem build_never_raises :
  (∀ type, wf_schema type → ∀ path value setValue h,
     ∃ f h', createField type path value setValue h = (Return f, h'))
  ∧ (∀ type path value setValue h msg h',
       createField type path value setValue h = (Throw msg, h') → ¬ wf_schema type)
  ∧ (∀ tag, tag ∈ scalar_tags → ∀ path value setValue h,
       ∃ type required,
         createField (STag tag) path value setValue h
         = (Return (ScalarField type path required (stored h type value) setValue), h)
         ∧ (accepts h type value = false → stored h type value = VNull))
  ∧ (∀ type path value setValue h, Array_isArray h value = false →
       createField (SArray [type]) path value setValue h
       = (Return (ArrayField path (length h) setValue []), h ++ [HArr []]))
  ∧ (∀ entries path value setValue h, is_object_typed value = false →
       createField (SObject entries) path value setValue h
       = createField (SObject entries) path (VRef (length h)) setValue (h ++ [HObj ∅])).
Proof.
  split; [|split; [|split; [|split]]].
  - intros type Hwf. by apply createField_total.
  - intros type path value setValue h msg h' Hthrow Hwf.
    destruct (createField_total type Hwf path value setValue h) as (f & h1 & Hret).
    congruence.
  - intros tag [[type required] Htag]%scalar_tag_recognised path value setValue h.
    exists type, required. rewrite createField_STag, Htag.
    split; [done|apply stored_rejected].
  - intros type path value setValue h Harr. simpl. unfold createArrayField.
    destruct (array_cell value h) as (h1 & Hv & Hh1). rewrite Harr in Hh1. subst h1.
    erewrite bind_run; [|exact Hv].
    assert (backing_array h value = length h) as ->.
    { unfold backing_array. destruct value; try done. by rewrite Harr. }
    erewrite bind_run; [|reflexivity].
    unfold elements. rewrite lookup_app_r, Nat.sub_diag by done. done.
  - intros entries path value setValue h Hobj. by apply createField_object_fallback.
Qed.


(** ** The mutation helpers *)

Lemma splice_start_le (len : nat) (start : Z) : (splice_start len start ≤ len)%nat.
Proof. unfold splice_start. case_bool_decide; lia. Qed.

(** X1 (the part of C7 the code keeps): what the helpers do on a backing
    array with elements [elems]: the built-in mutation in place, then the
    setter on the same reference, and the result of the mutation returned.
    For [splice] this holds when the count is passed. *)
Lemma array_helpers (path : list pkey) (v : loc) (setValue : setter)
    (fields : list field) (elems : list value) (h : heap) :
  h !! v = Some (HArr elems) →
  (∀ items, push (ArrayField path v setValue fields) items h
     = (Return (length elems + length items),
        setValue (VRef v) (<[v := HArr (elems ++ items)]> h)))
  ∧ (∀ items, unshift (ArrayField path v setValue fields) items h
     = (Return (length items + length elems),
        setValue (VRef v) (<[v := HArr (items ++ elems)]> h)))
  ∧ (∀ init x, elems = init ++ [x] →
       pop (ArrayField path v setValue fields) h
       = (Return x, setValue (VRef v) (<[v := HArr init]> h)))
  ∧ (∀ x rest, elems = x :: rest →
       shift (ArrayField path v setValue fields) h
       = (Return x, setValue (VRef v) (<[v := HArr rest]> h)))
  ∧ (∀ from count items,
       splice (ArrayField path v setValue fields) from (Some count) items h
       = (let '(o, h') := Array_splice v from (Some count) items h in
          (o, setValue (VRef v) h'))).
Proof.
  intros Hv. repeat split.
  - intros items. unfold push, Array_push, with_array, call1, invoke.
    unfold mbind, M_bind, mret, M_ret. rewrite Hv. by rewrite length_app.
  - intros items. unfold unshift, Array_unshift, with_array, call1, invoke.
    unfold mbind, M_bind, mret, M_ret. rewrite Hv. by rewrite length_app.
  - intros init x ->. unfold pop, Array_pop, with_array, call1, invoke.
    unfold mbind, M_bind, mret, M_ret. rewrite Hv.
    by rewrite last_snoc, removelast_last.
  - intros x rest ->. unfold shift, Array_shift, with_array, call1, invoke.
    unfold mbind, M_bind, mret, M_ret. by rewrite Hv.
  - intros from count items. unfold splice, Array_splice, with_array, call1, invoke.
    unfold mbind, M_bind, mret, M_ret. by rewrite Hv.
Qed.

(** C7: [splice] called without a count.  The helper passes the count [0]
    on, so nothing is removed and the empty list comes back (the items, if
    any, are inserted and the setter is invoked); the built-in [splice]
    called without a count removes, and returns, every element from the
    start index on. *)
Theorem splice_without_count (path : list pkey) (v : loc) (setValue : setter)
    (fields : list field) (elems items : list value) (from : Z) (h : heap) :
  h !! v = Some (HArr elems) →
  splice (ArrayField path v setValue fields) from None items h
  = (Return [],
     setValue (VRef v)
       (<[v := HArr (take (splice_start (length elems) from) elems ++ items
                     ++ drop (splice_start (length elems) from) elems)]> h))
  ∧ Array_splice v from None items h
    = (Return (drop (splice_start (length elems) from) elems),
       <[v := HArr (take (splice_start (length elems) from) elems ++ items)]> h).
Proof.
  intros Hv. pose proof (splice_start_le (length elems) from) as Hle. split.
  - unfold splice, Array_splice, with_array, call1, invoke.
    unfold mbind, M_bind, mret, M_ret. rewrite Hv. simpl.
    replace (Z.to_nat ((0 `max` 0) `min`
               Z.of_nat (length elems - splice_start (length elems) from))) with 0%nat
      by lia.
    simpl. by rewrite Nat.add_0_r.
  - unfold Array_splice, with_array, splice_count. rewrite Hv.
    rewrite take_ge by (rewrite length_drop; lia).
    rewrite (drop_ge elems (splice_start (length elems) from
                            + (length elems - splice_start (length elems) from))) by lia.
    by rewrite app_nil_r.
Qed.

(** C10: on an empty backing array [pop] and [shift] throw nothing, return
    [undefined], and invoke the setter once, with the backing array, which
    is still empty. *)
Theorem pop_shift_on_empty (items : list schema) (path : list pkey) (value : value)
    (setValue : setter) (h h1 h2 : heap) (f : field) :
  createField (SArray items) path value setValue h = (Return f, h1) →
  h2 !! backing_array h value = Some (HArr []) →
  pop f h2 = (Return VUndefined, setValue (VRef (backing_array h value)) h2)
  ∧ shift f h2 = (Return VUndefined, setValue (VRef (backing_array h value)) h2)
  ∧ ∀ log calls, log ≠ backing_array h value → h2 !! log = Some (HArr calls) →
      record log (VRef (backing_array h value)) h2 !! log
      = Some (HArr (calls ++ [VRef (backing_array h value)]))
      ∧ record log (VRef (backing_array h value)) h2 !! backing_array h value
        = Some (HArr []).
Proof.
  simpl. intros (fields & ->)%createArrayField_Return Hv.
  split; [|split; [|intros log calls Hne Hlog; split]].
  - unfold pop, Array_pop, with_array, call1, invoke.
    unfold mbind, M_bind, mret, M_ret. rewrite Hv. simpl.
    by rewrite list_insert_id.
  - unfold shift, Array_shift, with_array, call1, invoke.
    unfold mbind, M_bind, mret, M_ret. rewrite Hv. simpl.
    by rewrite list_insert_id.
  - unfold record. rewrite Hlog. apply list_lookup_insert_eq. by eapply lookup_lt_Some.
  - unfold record. rewrite Hlog. by rewrite list_lookup_insert_ne.
Qed.

(** ** Dates *)

(** C9: a date field over a raw string.  A numeric string is read as a
    timestamp: the date is constructed from its numeric value and the string
    is never parsed as a calendar date; any other string is parsed as a
    date.  Either way a result that is not a valid date is stored as
    [null]. *)
Theorem date_field_of_string `{!HostLaws} (tag : string) (path : list pkey)
    (s : string) (setValue : setter) (h : heap) :
  tag ∈ ["date"; "date?"] →
  ∃ required,
    createField (STag tag) path (VStr s) setValue h
    = (Return (ScalarField TDate path required (date (VStr s)) setValue), h)
    ∧ (isNumberString (VStr s) = true →
         date (VStr s)
         = (if isDate (VDate (Date_time (VNum (to_number (VStr s)))))
            then VDate (Date_time (VNum (to_number (VStr s)))) else VNull))
    ∧ (isNumberString (VStr s) = false →
         date (VStr s)
         = (if isDate (VDate (Date_time (VStr s)))
            then VDate (Date_time (VStr s)) else VNull)).
Proof.
  intros Htag.
  assert (isDate (VStr s) = false) as Hd.
  { destruct (isDate (VStr s)) eqn:E; [|done]. by apply isDate_guard in E as [t ?]. }
  assert (isNumber (VStr s) = false) as Hn.
  { destruct (isNumber (VStr s)) eqn:E; [|done]. by apply isNumber_guard in E as [n ?]. }
  exists (String.eqb "date" tag). split; [|split].
  - rewrite createField_STag.
    apply elem_of_cons in Htag as [->|Htag]; [done|].
    apply list_elem_of_singleton in Htag as ->. done.
  - intros Hns. unfold date. by rewrite Hd, Hn, Hns.
  - intros Hns. unfold date. by rewrite Hd, Hn, Hns, isString_string.
Qed.

(** ** Paths *)

Lemma object_loop_paths (type : list (string * builder)) (path : list pkey) (v : value)
    (setValue : setter) (o o' : list (string * field)) (h h' : heap) :
  Forall (λ kb, keeps_paths kb.2) type →
  (∀ key f0, assoc_get key o = Some f0 → paths_from (path ++ [KStr key]) f0) →
  object_loop type path v setValue o h = (Return o', h') →
  ∀ key f0, assoc_get key o' = Some f0 → paths_from (path ++ [KStr key]) f0.
Proof.
  intros Hall. revert o h.
  induction Hall as [|[k build] type Hb _ IH]; intros o h Ho; simpl.
  - by intros [= <- <-].
  - unfold read_prop at 1. unfold mbind at 1, M_bind at 1.
    intros (f1 & h1 & Hbuild & Hrest)%bind_Return.
    eapply IH; [|exact Hrest].
    intros key f0. rewrite assoc_get_set.
    destruct (String.eqb_spec k key) as [->|_]; [|by apply Ho].
    intros [= <-]. by eapply Hb.
Qed.

Lemma array_loop_paths (build : builder) (path : list pkey) (v : loc)
    (setValue : setter) (elems : list value) (index : nat) (h h' : heap)
    (fs : list field) :
  keeps_paths build →
  array_loop build path v setValue elems index h = (Return fs, h') →
  ∀ i f0, fs !! i = Some f0 → paths_from (path ++ [KIdx (index + i)]) f0.
Proof.
  intros Hb. revert index h fs.
  induction elems as [|x elems IH]; intros index h fs; simpl.
  - by intros [= <- <-].
  - intros (f1 & h1 & Hbuild & Hrest)%bind_Return.
    apply bind_Return in Hrest as (fs1 & h2 & Hloop & [= <- <-]).
    intros [|i] f0; simpl.
    + intros [= <-]. rewrite Nat.add_0_r. by eapply Hb.
    + intros Hi. rewrite <-Nat.add_succ_comm. by eapply IH.
Qed.

Lemma createField_paths (type : schema) : keeps_paths (createField type).
Proof.
  induction type as [tag|items IH|entries IH|shown] using schema_induction;
    intros path value setValue h f0 h'.
  - rewrite createField_STag.
    destruct (scalar_tag tag) as [[ty req]|]; [|discriminate].
    intros [= <- <-] [|k p] f q; simpl; [|by destruct k].
    intros [= <-] [= <-]. by rewrite app_nil_r.
  - simpl. unfold createArrayField.
    intros (v & h1 & _ & Hrun)%bind_Return.
    apply bind_Return in Hrun as (elems & h2 & _ & Hrun).
    apply bind_Return in Hrun as (fs & h3 & Hloop & [= <- <-]).
    intros [|k p] f q; simpl.
    + intros [= <-] [= <-]. by rewrite app_nil_r.
    + destruct k as [key|i]; [done|].
      destruct (fs !! i) as [f1|] eqn:Hi; [|done]. simpl. intros Hp Hq.
      assert (keeps_paths (match items with
                           | [] => unexpected_type "undefined"
                           | type :: _ => createField type
                           end)) as Hb.
      { destruct IH; [|done]. by intros ? ? ? ? ? ? [=]. }
      pose proof (array_loop_paths _ _ _ _ _ _ _ _ _ Hb Hloop i f1 Hi p f q Hp Hq) as ->.
      by rewrite <-(assoc_L (++)).
  - simpl. unfold createObjectField.
    intros (v & h1 & _ & Hrun)%bind_Return.
    apply bind_Return in Hrun as (o & h2 & Hloop & [= <- <-]).
    intros [|k p] f q; simpl; [by intros [= <-]|].
    destruct k as [key|i]; [|done].
    destruct (assoc_get key o) as [f1|] eqn:Hkey; [|done]. simpl. intros Hp Hq.
    assert (paths_from (path ++ [KStr key]) f1) as Hf1.
    { eapply object_loop_paths; [| |exact Hloop|exact Hkey]; [|done].
      apply Forall_fmap. eapply Forall_impl; [exact IH|]. by intros [k t]. }
    rewrite (Hf1 p f q Hp Hq). by rewrite <-(assoc_L (++)).
  - by intros [=].
Qed.

(** ** Extraction fails fast *)

Lemma first_failure_app (h : heap) (fs gs : list field) :
  first_failure h (fs ++ gs)
  = match first_failure h fs with
    | Some msg => Some msg
    | None => first_failure h gs
    end.
Proof.
  induction fs as [|f fs IH]; simpl; [done|].
  by destruct (getFieldData h f).
Qed.

Lemma first_failure_leaf (h : heap) (f : field) (msg : string) :
  getFieldData h f = Throw msg ↔ first_failure h [f] = Some msg.
Proof.
  unfold first_failure. destruct (getFieldData h f); split; congruence.
Qed.

Lemma getFieldData_first_failure (h : heap) (f : field) (msg : string) :
  getFieldData h f = Throw msg ↔ first_failure h (leaves f) = Some msg.
Proof.
  revert msg.
  induction f as [type path required value setValue|path v setValue fields IH|o IH|t]
    using field_induction; intros msg.
  - apply first_failure_leaf.
  - simpl. induction IH as [|f fields Hf _ IHfields]; simpl.
    + done.
    + rewrite first_failure_app. unfold mbind at 2, outcome_bind at 2.
      destruct (getFieldData h f) as [d|m] eqn:Hd.
      * destruct (first_failure h (leaves f)) as [m'|] eqn:Hm'.
        { discriminate (proj2 (Hf m') eq_refl). }
        rewrite <-IHfields. unfold mbind, outcome_bind.
        destruct (map_fields (getFieldData h) fields); split; congruence.
      * rewrite (proj1 (Hf m) eq_refl). unfold mbind, outcome_bind. split; congruence.
  - simpl. generalize (@nil (string * data)) as acc.
    induction IH as [|[key f] o Hf _ IHo]; intros acc; simpl.
    + done.
    + rewrite first_failure_app. unfold mbind at 2, outcome_bind at 2.
      simpl in Hf.
      destruct (getFieldData h f) as [d|m] eqn:Hd.
      * destruct (first_failure h (leaves f)) as [m'|] eqn:Hm'.
        { discriminate (proj2 (Hf m') eq_refl). }
        apply IHo.
      * rewrite (proj1 (Hf m) eq_refl). unfold mbind, outcome_bind. split; congruence.
  - apply first_failure_leaf.
Qed.

(** C4: extraction of a required scalar field whose stored value is [null]
    throws the validation error; its message holds the path of the field,
    its components joined by dots, and the raw value.  In a tree built by
    [createForm] the path of a field is the list of keys and indices that
    leads to it from the root.  An extraction throws exactly the error of
    the first field, in extraction order, whose own extraction throws, and
    gives no data then. *)
Theorem required_null_raises `{!HostLaws} :
  (∀ tag path value setValue h f h1,
     tag ∈ required_tags →
     createField (STag tag) path value setValue h = (Return f, h1) →
     call0 f h1 = (Return VNull, h1) →
     ∀ h2, getFieldData h2 f
           = Throw ("field " +:+ join_path path +:+ " is required; got "
                    +:+ JSON_stringify h2 VNull))
  ∧ (∀ scheme data setData h fields h1,
       createForm scheme data setData h = (Return fields, h1) →
       ∀ p f q, descend p fields = Some f → field_path f = Some q → q = p)
  ∧ (∀ h f msg,
       getFieldData h f = Throw msg ↔ first_failure h (leaves f) = Some msg).
Proof.
  split; [|split].
  - intros tag path value setValue h f h1 Htag. rewrite createField_STag.
    assert (∃ type, scalar_tag tag = Some (type, true)) as [type ->].
    { unfold required_tags in Htag. rewrite !elem_of_cons, elem_of_nil in Htag.
      repeat (destruct Htag as [->|Htag]; [by eexists|]). done. }
    intros [= <- <-]. simpl. intros [= ->] h2.
    assert (isNumberString VNull = false) as Hns.
    { destruct (isNumberString VNull) eqn:E; [|done].
      by apply isNumberString_guard in E as [s ?]. }
    assert (isDate VNull = false) as Hd.
    { destruct (isDate VNull) eqn:E; [|done]. by apply isDate_guard in E as [t ?]. }
    destruct type; simpl.
    + done.
    + unfold getNumberFieldData. by rewrite Hns.
    + done.
    + unfold getDateFieldData. by rewrite Hd.
    + done.
  - intros scheme data setData h fields h1 Hbuild p f q Hp Hq.
    apply (createField_paths (SObject scheme) [] data setData h fields h1 Hbuild p f q Hp Hq).
  - apply getFieldData_first_failure.
Qed.

(** ** Round trip *)

Lemma assoc_set_fresh {A} (key : string) (x : A) (o : list (string * A)) :
  key ∉ o.*1 → assoc_set key x o = o ++ [(key, x)].
Proof.
  induction o as [|[k y] o IH]; simpl; [done|].
  rewrite not_elem_of_cons. intros [Hne Hnotin].
  destruct (String.eqb_spec k key) as [->|_]; [done|]. by rewrite IH.
Qed.






End Properties.

(** * More of the program *)

Section More.
Context `{Host}.

(** ** The heap only grows, by empty cells *)

Lemma allocation_trans (h h1 h2 : heap) : grows h h1 → grows h1 h2 → grows h h2.
Proof.
  intros (e1 & -> & He1) (e2 & -> & He2). exists (e1 ++ e2).
  split; [by rewrite (assoc_L (++))|by apply Forall_app].
Qed.

Lemma allocation_refl (h : heap) : grows h h.
Proof. exists []. by rewrite app_nil_r. Qed.

Lemma object_loop_allocates (type : list (string * builder)) (path : list pkey)
    (v : value) (setValue : setter) (o : list (string * field)) (h h' : heap)
    (r : outcome (list (string * field))) :
  Forall (λ kb, allocates_empty kb.2) type →
  object_loop type path v setValue o h = (r, h') →
  grows h h'.
Proof.
  intros Hall. revert o h.
  induction Hall as [|[key build] type Hb _ IH]; intros o h; simpl.
  - intros [= _ <-]. apply allocation_refl.
  - unfold read_prop at 1. unfold mbind at 1, M_bind at 1. unfold mbind, M_bind.
    destruct (build _ _ _ h) as [[f|msg] h1] eqn:Hbuild.
    + intros Hrest%IH. eapply allocation_trans; [|exact Hrest]. by eapply Hb.
    + intros [= _ <-]. by eapply Hb.
Qed.

Lemma array_loop_allocates (build : builder) (path : list pkey) (v : loc)
    (setValue : setter) (elems : list value) (index : nat) (h h' : heap)
    (r : outcome (list field)) :
  allocates_empty build →
  array_loop build path v setValue elems index h = (r, h') →
  grows h h'.
Proof.
  intros Hb. revert index h r.
  induction elems as [|x elems IH]; intros index h r; simpl.
  - intros [= _ <-]. apply allocation_refl.
  - unfold mbind, M_bind.
    destruct (build _ _ _ h) as [[f|msg] h1] eqn:Hbuild.
    + destruct (array_loop _ _ _ _ _ _ h1) as [[fs|msg] h2] eqn:Hloop;
        intros [= _ <-]; (eapply allocation_trans; [by eapply Hb|by eapply IH]).
    + intros [= _ <-]. by eapply Hb.
Qed.

Lemma createField_allocates (type : schema) : allocates_empty (createField type).
Proof.
  induction type as [tag|items IH|entries IH|shown] using schema_induction;
    intros path value setValue h r h'.
  - rewrite createField_STag.
    destruct (scalar_tag tag) as [[ty req]|]; intros [= _ <-]; apply allocation_refl.
  - simpl. unfold createArrayField.
    destruct (array_cell value h) as (h1 & Hv & Hh1).
    intros Hrun. erewrite bind_run in Hrun; [|exact Hv].
    unfold read_elements in Hrun. erewrite bind_run in Hrun; [|reflexivity].
    assert (grows h h1) as Hcell.
    { subst h1. destruct (Array_isArray h value); [apply allocation_refl|].
      exists [HArr []]. split; [done|]. constructor; [by right|done]. }
    eapply allocation_trans; [exact Hcell|].
    unfold mbind, M_bind in Hrun.
    destruct (array_loop _ _ _ _ _ _ h1) as [[fs|msg] h2] eqn:Hloop;
      injection Hrun as _ <-; (eapply array_loop_allocates; [|exact Hloop]);
      (destruct IH; [by intros ? ? ? ? ? ? [= _ <-]; apply allocation_refl|done]).
  - simpl. unfold createObjectField.
    assert (Forall (λ kb : string * builder, allocates_empty kb.2)
              ((λ '(key, type), (key, createField type)) <$> entries)) as Hall.
    { apply Forall_fmap. eapply Forall_impl; [exact IH|]. by intros [k t]. }
    unfold mbind, M_bind. destruct (is_object_typed value); simpl.
    + destruct (object_loop _ _ _ _ _ h) as [[o|msg] h1] eqn:Hloop;
        intros [= _ <-]; by eapply object_loop_allocates.
    + destruct (object_loop _ _ _ _ _ (h ++ _)) as [[o|msg] h1] eqn:Hloop;
        intros [= _ <-];
        (eapply allocation_trans; [|by eapply object_loop_allocates]);
        (exists [HObj ∅]; split; [done|]; constructor; [by left|done]).
  - intros [= _ <-]. apply allocation_refl.
Qed.

Lemma grows_prefix (h h' : heap) : grows h h' → h `prefix_of` h'.
Proof. intros (ext & -> & _). by apply prefix_app_r. Qed.

Lemma grows_lookup (h h' : heap) (l : loc) (c : hobj) :
  grows h h' → h !! l = Some c → h' !! l = Some c.
Proof. intros (ext & -> & _) Hl. by apply lookup_app_l_Some. Qed.

(** A fresh empty cell has no property and no element: reading through a
    reference gives the same before and after an allocation. *)
Lemma grows_get_prop (h h' : heap) (v : value) (key : string) :
  grows h h' → get_prop h' v key = get_prop h v key.
Proof.
  intros (ext & -> & Hext). destruct v; try done. simpl.
  destruct (h !! l) as [c|] eqn:Hl.
  - by rewrite (lookup_app_l_Some _ _ _ _ Hl).
  - rewrite lookup_app_r by by apply lookup_ge_None.
    destruct (ext !! (l - length h)) as [c|] eqn:Hc; [|done].
    rewrite Forall_lookup in Hext. destruct (Hext _ _ Hc) as [-> | ->].
    + by rewrite lookup_empty.
    + by destruct (index_of_key key).
Qed.

Lemma grows_elements (h h' : heap) (l : loc) :
  grows h h' → elements h' l = elements h l.
Proof.
  intros (ext & -> & Hext). unfold elements.
  destruct (h !! l) as [c|] eqn:Hl.
  - by rewrite (lookup_app_l_Some _ _ _ _ Hl).
  - rewrite lookup_app_r by by apply lookup_ge_None.
    destruct (ext !! (l - length h)) as [c|] eqn:Hc; [|done].
    rewrite Forall_lookup in Hext. by destruct (Hext _ _ Hc) as [-> | ->].
Qed.

(** ** What the loops of the builder return *)

Lemma object_loop_spec (type : list (string * builder)) (path : list pkey) (v : value)
    (setValue : setter) (o o' : list (string * field)) (h h1 : heap) :
  Forall (λ kb, allocates_empty kb.2) type →
  NoDup (o.*1 ++ type.*1) →
  object_loop type path v setValue o h = (Return o', h1) →
  ∃ fs, o' = o ++ fs
    ∧ Forall2 (λ kb kf, kb.1 = kf.1 ∧ ∃ h' h'',
                 grows h h'
                 ∧ kb.2 (path ++ [KStr kb.1]) (get_prop h' v kb.1)
                     (key_setter setValue v kb.1) h' = (Return kf.2, h'')) type fs.
Proof.
  intros Hall. revert o h.
  induction Hall as [|[key build] type Hb Hall IH]; intros o h Hdup; simpl.
  - intros [= <- <-]. exists []. by rewrite app_nil_r.
  - unfold read_prop at 1. unfold mbind at 1, M_bind at 1.
    intros (f & h2 & Hbuild & Hrest)%bind_Return.
    assert (key ∉ o.*1) as Hfresh.
    { apply NoDup_app in Hdup as (_ & Hdisj & _). intros Hin.
      apply (Hdisj key Hin). by left. }
    rewrite assoc_set_fresh in Hrest by done.
    pose proof (Hb _ _ _ _ _ _ Hbuild) as Hh2.
    apply IH in Hrest as (fs & -> & Hfs).
    + exists ((key, f) :: fs). split; [by rewrite <-(assoc_L (++))|].
      constructor.
      * split; [done|]. exists h, h2. split; [apply allocation_refl|done].
      * eapply Forall2_impl; [exact Hfs|].
        intros kb kf (Hk & h' & h'' & Hh' & Hkb). split; [done|].
        exists h', h''. split; [by eapply allocation_trans|done].
    + rewrite fmap_app. simpl. by rewrite <-(assoc_L (++)).
Qed.

Lemma array_loop_spec (build : builder) (path : list pkey) (v : loc)
    (setValue : setter) (elems : list value) (index : nat) (h h1 : heap)
    (fs : list field) :
  allocates_empty build →
  array_loop build path v setValue elems index h = (Return fs, h1) →
  length fs = length elems
  ∧ ∀ i x f, elems !! i = Some x → fs !! i = Some f →
      ∃ h' h'', grows h h'
        ∧ build (path ++ [KIdx (index + i)]) x (index_setter setValue v (index + i)) h'
          = (Return f, h'').
Proof.
  intros Hb. revert index h fs.
  induction elems as [|y elems IH]; intros index h fs; simpl.
  - intros [= <- <-]. split; [done|]. by intros i x f [=].
  - intros (f0 & h2 & Hbuild & Hrest)%bind_Return.
    apply bind_Return in Hrest as (fs' & h3 & Hloop & [= <- <-]).
    pose proof (Hb _ _ _ _ _ _ Hbuild) as Hh2.
    apply IH in Hloop as [Hlen Hsub]. split; [simpl; by rewrite Hlen|].
    intros [|i] x f; simpl.
    + intros [= <-] [= <-]. rewrite Nat.add_0_r. exists h, h2.
      split; [apply allocation_refl|done].
    + intros Hx Hf. destruct (Hsub i x f Hx Hf) as (h' & h'' & Hh' & Hf').
      rewrite <-Nat.add_succ_comm. exists h', h''.
      split; [by eapply allocation_trans|done].
Qed.

Lemma createField_SObject_spec (entries : list (string * schema)) (path : list pkey)
    (value : value) (setValue : setter) (h h1 : heap) (F : field) :
  NoDup entries.*1 →
  createField (SObject entries) path value setValue h = (Return F, h1) →
  ∃ fs, F = ObjectField fs
    ∧ Forall2 (λ kv kf, kv.1 = kf.1 ∧ ∃ h' h'',
                 grows h h'
                 ∧ createField kv.2 (path ++ [KStr kv.1])
                     (if is_object_typed value then get_prop h value kv.1 else VUndefined)
                     (key_setter setValue (backing_object h value) kv.1) h'
                   = (Return kf.2, h'')) entries fs.
Proof.
  intros Hdup. simpl. unfold createObjectField.
  intros (v & h2 & Hv & Hrun)%bind_Return.
  apply bind_Return in Hrun as (o & h3 & Hloop & [= <- <-]).
  assert (v = backing_object h value ∧ grows h h2
          ∧ ∀ key, get_prop h2 v key
                   = if is_object_typed value then get_prop h value key else VUndefined)
    as (-> & Hh2 & Hread).
  { unfold backing_object. destruct (is_object_typed value).
    - unfold mret, M_ret in Hv. injection Hv as <- <-.
      split; [done|]. split; [apply allocation_refl|done].
    - apply bind_Return in Hv as (l & h5 & Hl & [= <- <-]).
      unfold new_cell, alloc in Hl. injection Hl as <- <-.
      split; [done|]. split.
      + exists [HObj ∅]. split; [done|]. constructor; [by left|done].
      + intros key. simpl. by rewrite lookup_app_r, Nat.sub_diag. }
  apply object_loop_spec in Hloop as (fs & -> & Hfs).
  - exists fs. split; [done|]. apply Forall2_fmap_l in Hfs.
    eapply Forall2_impl; [exact Hfs|].
    intros [k t] kf Hkf. unfold compose in Hkf. simpl in Hkf.
    destruct Hkf as (Hk & h' & h'' & Hh' & Hb). split; [done|].
    exists h', h''. split; [by eapply allocation_trans|].
    simpl. by rewrite <-Hread, <-(grows_get_prop h2 h').
  - apply Forall_fmap, Forall_forall. intros [k t] _. apply createField_allocates.
  - simpl. rewrite <-list_fmap_compose.
    erewrite list_fmap_ext; [exact Hdup|]. by intros ? [k t].
Qed.

Lemma createField_SArray_spec (type : schema) (rest : list schema) (path : list pkey)
    (value : value) (setValue : setter) (h h1 : heap) (F : field) :
  createField (SArray (type :: rest)) path value setValue h = (Return F, h1) →
  ∃ fs, F = ArrayField path (backing_array h value) setValue fs
    ∧ length fs = length (if Array_isArray h value
                          then elements h (backing_array h value) else [])
    ∧ ∀ i x f, elements h (backing_array h value) !! i = Some x → fs !! i = Some f →
        ∃ h' h'', grows h h'
          ∧ createField type (path ++ [KIdx i]) x
              (index_setter setValue (backing_array h value) i) h' = (Return f, h'').
Proof.
  simpl. unfold createArrayField.
  destruct (array_cell value h) as (h2 & Hv & Hh2).
  intros Hrun. erewrite bind_run in Hrun; [|exact Hv].
  apply bind_Return in Hrun as (elems & h3 & [= <- <-] & Hrun).
  apply bind_Return in Hrun as (fs & h4 & Hloop & [= <- <-]).
  apply array_loop_spec in Hloop as [Hlen Hsub]; [|apply createField_allocates].
  exists fs. split; [done|].
  destruct (Array_isArray h value) eqn:Harr; subst h2.
  - split; [done|]. intros i x f Hx Hf. by apply (Hsub i x f).
  - assert (elements (h ++ [HArr []]) (backing_array h value) = []) as Hnil.
    { unfold backing_array, elements. destruct value; rewrite ?Harr;
        by rewrite lookup_app_r, Nat.sub_diag. }
    rewrite Hnil in Hlen. split; [done|].
    destruct fs; [|done]. by intros i x f _ [=].
Qed.

(** ** The sub-fields of an array field *)

(** X2: an array field built over an array without empty or [undefined]
    slots enumerates one sub-field per element, in index order ([map] hands
    each to its callback with its index), and none when the raw value is
    not an array.  The sub-field at [i] is the field [createField] builds
    for the element schema over the element at [i], under the path of the
    array followed by [i].  (The builder makes the sub-fields with [map],
    which passes over an empty slot; so the array is taken without one.) *)
Theorem array_field_subfields (type : schema) (rest : list schema) (path : list pkey)
    (value : value) (setValue : setter) (h h1 : heap) (F : field) :
  VUndefined ∉ elements h (backing_array h value) →
  createField (SArray (type :: rest)) path value setValue h = (Return F, h1) →
  ∃ fs, iterate F = Return fs
    ∧ (∀ R (cb : field → nat → R),
         field_map F cb = Return (imap (λ index sub, cb sub index) fs))
    ∧ (Array_isArray h value = true →
         length fs = length (elements h (backing_array h value)))
    ∧ (Array_isArray h value = false → fs = [])
    ∧ ∀ i x f, elements h (backing_array h value) !! i = Some x → fs !! i = Some f →
        ∃ h' h'', grows h h'
          ∧ createField type (path ++ [KIdx i]) x
              (index_setter setValue (backing_array h value) i) h' = (Return f, h'').
Proof.
  intros _ (fs & -> & Hlen & Hsub)%createField_SArray_spec.
  exists fs. split; [done|]. split; [done|].
  destruct (Array_isArray h value).
  - split; [done|]. split; [done|exact Hsub].
  - split; [done|]. split; [|exact Hsub]. intros _. by destruct fs.
Qed.

(** X3: calling the sub-field at [i] of an array field with [x] stores [x]
    at index [i] of the backing array, in place, and then invokes the
    setter of the array field with the backing array.  While [i] is inside
    the array the element is replaced; once the array has become shorter
    (after a [pop], say) the write grows it again, the skipped slots reading
    as [undefined]. *)
Theorem array_element_write (type : schema) (rest : list schema) (path : list pkey)
    (value : value) (setValue : setter) (h h1 : heap) (F f : field)
    (fs : list field) (i : nat) :
  createField (SArray (type :: rest)) path value setValue h = (Return F, h1) →
  iterate F = Return fs →
  fs !! i = Some f →
  callable f →
  ∀ x h2,
    call1 f x h2
    = (Return x, setValue (VRef (backing_array h value))
                   (set_index (backing_array h value) i x h2))
    ∧ ∀ elems, h2 !! backing_array h value = Some (HArr elems) →
        ((i < length elems)%nat →
           set_index (backing_array h value) i x h2
           = <[backing_array h value := HArr (<[i := x]> elems)]> h2)
        ∧ ((length elems ≤ i)%nat →
             set_index (backing_array h value) i x h2
             = <[backing_array h value :=
                   HArr (elems ++ replicate (i - length elems) VUndefined ++ [x])]> h2).
Proof.
  intros (fs' & -> & Hlen & Hsub)%createField_SArray_spec [= <-] Hf Hcall x h2.
  assert (wired (index_setter setValue (backing_array h value) i) f) as Hw.
  { destruct (Array_isArray h value); [|by destruct fs'].
    destruct (lookup_lt_is_Some_2 (elements h (backing_array h value)) i) as [y Hy].
    { rewrite <-Hlen. by eapply lookup_lt_Some. }
    destruct (Hsub i y f Hy Hf) as (h' & h'' & _ & Hbuild).
    by eapply createField_wired. }
  split; [exact (wired_call1 _ f x h2 Hw Hcall)|].
  intros elems Hv. unfold set_index, array_store. rewrite Hv.
  split; intros Hi.
  - by rewrite bool_decide_true.
  - by rewrite bool_decide_false by lia.
Qed.

(** ** Building leaves the backing value alone *)

(** X4: building never writes to the heap it is given.  Whatever the
    schema, the value and the setter, and also when the build throws, the
    heap afterwards is the heap before followed by the cells the build
    allocated, all of them empty objects or empty arrays; every cell of the
    backing value reads as before, and no setter was invoked on it. *)
Theorem build_only_allocates (type : schema) (path : list pkey) (value : value)
    (setValue : setter) (h h' : heap) (r : outcome field) :
  createField type path value setValue h = (r, h') →
  ∃ ext, h' = h ++ ext
    ∧ Forall empty_cell ext
    ∧ (∀ l c, h !! l = Some c → h' !! l = Some c)
    ∧ (∀ v key, is_Some (h !! v) → get_prop h' (VRef v) key = get_prop h (VRef v) key)
    ∧ (∀ v, is_Some (h !! v) → elements h' v = elements h v).
Proof.
  intros (ext & -> & Hext)%createField_allocates.
  exists ext. split; [done|]. split; [done|].
  assert (∀ l c, h !! l = Some c → (h ++ ext) !! l = Some c) as Hkeep.
  { intros l c Hl. by apply lookup_app_l_Some. }
  split; [exact Hkeep|]. split.
  - intros v key [c Hc]. unfold get_prop. by rewrite (Hkeep v c Hc), Hc.
  - intros v [c Hc]. unfold elements. by rewrite (Hkeep v c Hc), Hc.
Qed.

(** ** What extraction returns *)

Lemma map_fields_inv (cb : field → outcome data) (fs : list field) (ds : list data) :
  map_fields cb fs = Return ds → Forall2 (λ f d, cb f = Return d) fs ds.
Proof.
  revert ds. induction fs as [|f fs IH]; intros ds; simpl.
  - intros [= <-]. constructor.
  - unfold mbind, outcome_bind. destruct (cb f) as [d|] eqn:Hd; [|done].
    destruct (map_fields cb fs) as [ds'|]; [|done].
    intros [= <-]. constructor; [done|by apply IH].
Qed.

Lemma object_data_inv (cb : field → outcome data) (fs : list (string * field))
    (acc r : list (string * data)) :
  NoDup (acc.*1 ++ fs.*1) →
  object_data cb fs acc = Return r →
  ∃ ds, r = acc ++ ds
    ∧ Forall2 (λ kf kd, kf.1 = kd.1 ∧ cb kf.2 = Return kd.2) fs ds.
Proof.
  revert acc. induction fs as [|[key f] fs IH]; intros acc Hdup; simpl.
  - intros [= <-]. exists []. by rewrite app_nil_r.
  - unfold mbind, outcome_bind. destruct (cb f) as [d|] eqn:Hd; [|done].
    assert (key ∉ acc.*1) as Hfresh.
    { apply NoDup_app in Hdup as (_ & Hdisj & _). intros Hin.
      apply (Hdisj key Hin). by left. }
    rewrite assoc_set_fresh by done. intros Hrest.
    apply IH in Hrest as (ds & -> & Hds).
    + exists ((key, d) :: ds). split; [by rewrite <-(assoc_L (++))|].
      by constructor.
    + rewrite fmap_app. simpl. by rewrite <-(assoc_L (++)).
Qed.

Lemma Forall2_fst_eq {A B} (P : string * A → string * B → Prop)
    (l : list (string * A)) (k : list (string * B)) :
  Forall2 (λ x y, x.1 = y.1 ∧ P x y) l k → k.*1 = l.*1.
Proof.
  intros Hlk. symmetry. apply list_eq_Forall2, Forall2_fmap.
  eapply Forall2_impl; [exact Hlk|]. by intros x y [? _].
Qed.

Lemma Forall2_impl_Forall_l {A B} (P : A → Prop) (R Q : A → B → Prop)
    (l : list A) (k : list B) :
  Forall P l → Forall2 R l k → (∀ x y, P x → R x y → Q x y) → Forall2 Q l k.
Proof.
  intros HP HR Himpl. revert HP.
  induction HR as [|x y l k Hxy _ IH]; intros HP; [constructor|].
  apply Forall_cons in HP as [Hx HP]. constructor; [by apply Himpl|by apply IH].
Qed.

(** X5: a form whose schema is keyed by names has one field per key of the
    schema, in the order of the schema, whatever the backing data holds;
    the object extracted from it has exactly those keys, in that order.
    Properties of the backing object that the schema does not name never
    reach the extracted data.  (Under the key [__proto__] the assignment
    [o[key] = field] would set the prototype of the form and add no field;
    keys that are array indices are enumerated in ascending order, before
    the names.) *)
Theorem form_keys (scheme : list (string * schema)) (data : value) (setData : setter)
    (h h1 : heap) (F : field) :
  NoDup scheme.*1 →
  Forall named scheme.*1 →
  createForm scheme data setData h = (Return F, h1) →
  ∃ fields, F = ObjectField fields
    ∧ fields.*1 = scheme.*1
    ∧ ∀ h2 d, getFormData h2 fields = Return d →
        ∃ kvs, d = DObj kvs ∧ kvs.*1 = scheme.*1.
Proof.
  intros Hdup _ Hbuild.
  apply (createField_SObject_spec scheme [] data setData h h1 F Hdup)
    in Hbuild as (fields & -> & Hfields).
  pose proof (Forall2_fst_eq _ _ _ Hfields) as Hkeys.
  exists fields. split; [done|]. split; [done|].
  intros h2 d. unfold getFormData, getObjectFieldData. simpl.
  unfold mbind, outcome_bind.
  destruct (object_data (getFieldData h2) fields []) as [kvs|] eqn:Hdata; [|done].
  intros [= <-]. exists kvs. split; [done|].
  apply object_data_inv in Hdata as (ds & -> & Hds); [|simpl; by rewrite Hkeys].
  simpl. by rewrite (Forall2_fst_eq _ _ _ Hds).
Qed.

(** ** The stored value of a scalar field *)

Lemma scalar_tag_tags_of (tag : string) (type : scalar_type) (required : bool) :
  scalar_tag tag = Some (type, required) → tag ∈ tags_of type.
Proof.
  unfold scalar_tag.
  repeat match goal with
         | |- context [String.eqb tag ?s] =>
             destruct (String.eqb_spec tag s) as [->|_];
               [intros [= <- <-]; by repeat constructor|]
         end.
  done.
Qed.

Lemma guards_reject_null `{!HostLaws} (v : value) :
  nullish v = true →
  isString v = false ∧ isNumber v = false ∧ isDate v = false ∧ isNumberString v = false.
Proof.
  intros Hv. repeat split.
  - destruct (isString v) eqn:E; [|done]. apply isString_guard in E as [s ->]. done.
  - destruct (isNumber v) eqn:E; [|done]. apply isNumber_guard in E as [s ->]. done.
  - destruct (isDate v) eqn:E; [|done]. apply isDate_guard in E as [s ->]. done.
  - destruct (isNumberString v) eqn:E; [|done].
    apply isNumberString_guard in E as [s ->]. done.
Qed.

Lemma date_typed `{!HostLaws} (inp : value) :
  date inp = VNull ∨ ∃ t, date inp = VDate t ∧ isDate (date inp) = true.
Proof.
  unfold date. destruct (isDate inp) eqn:Hinp.
  - right. destruct (isDate_guard inp Hinp) as [t ->]. by exists t.
  - match goal with |- context [isDate ?o] => destruct (isDate o) eqn:Ho end;
      [|by left].
    right. destruct (isDate_guard _ Ho) as [t Ht]. exists t. by rewrite Ht in *.
Qed.

Lemma stored_typed `{!HostLaws} (h : heap) (type : scalar_type) (raw : value) :
  buffer_typed h type (stored h type raw).
Proof.
  unfold buffer_typed. destruct type; simpl.
  - destruct (_ || _); [right; by eexists|by left].
  - destruct (isNumber raw); [right; by eexists|].
    destruct (isString raw) eqn:Hs; [|by left].
    right. by apply isString_guard.
  - destruct raw; try (by left); right; by eexists.
  - destruct (date_typed raw) as [->|(t & Ht & Hd)]; [by left|right]. by exists t.
  - destruct (isFile h raw) eqn:Hf; [by right|by left].
Qed.

(** X6: the value a scalar field stores is [null] or a value of the type the
    field edits: a string for string and number fields, a boolean, a date
    that [isDate] accepts, a value that [isFile] accepts.  A raw string
    under a string or number tag is stored as it is, digit for digit,
    whether or not it reads as a number. *)
Theorem scalar_buffer_typed `{!HostLaws} (tag : string) (path : list pkey)
    (value : value) (setValue : setter) (h h1 : heap) (f : field) :
  createField (STag tag) path value setValue h = (Return f, h1) →
  ∃ type required val,
    f = ScalarField type path required val setValue
    ∧ tag ∈ tags_of type
    ∧ buffer_typed h type val
    ∧ (∀ s, value = VStr s → type = TString ∨ type = TNumber → val = VStr s).
Proof.
  rewrite createField_STag.
  destruct (scalar_tag tag) as [[type required]|] eqn:Htag; [|done].
  intros [= <- <-]. exists type, required, (stored h type value).
  split; [done|]. split; [by eapply scalar_tag_tags_of|].
  split; [apply stored_typed|].
  intros s -> [->| ->]; simpl.
  - by rewrite isString_string, String_string.
  - destruct (isNumber (VStr s)) eqn:E.
    + by apply isNumber_guard in E as [n ?].
    + by rewrite isString_string.
Qed.

(** X7: the conversion of a raw value is idempotent: a field built over the
    stored value of a field of the same type stores that same value.  So a
    form rebuilt over its own edit buffers shows what it showed. *)
Theorem stored_idempotent `{!HostLaws} (h : heap) (type : scalar_type) (raw : value) :
  stored h type (stored h type raw) = stored h type raw.
Proof.
  destruct (guards_reject_null VNull eq_refl) as (Hs & Hn & Hd & Hns).
  destruct type; simpl.
  - destruct (isString raw || isNumber raw || isDate raw); simpl.
    + by rewrite isString_string, String_string.
    + by rewrite Hs, Hn, Hd.
  - assert (∀ s, isNumber (VStr s) = false) as Hnum.
    { intros s. destruct (isNumber (VStr s)) eqn:E; [|done].
      by apply isNumber_guard in E as [n ?]. }
    destruct (isNumber raw); [by rewrite Hnum, isString_string|].
    destruct (isString raw) eqn:Hraw.
    + destruct (isString_guard raw Hraw) as [s ->]. by rewrite Hnum, Hraw.
    + by rewrite Hn, Hs.
  - by destruct raw.
  - destruct (date_typed raw) as [->|(t & Ht & Hdate)].
    + unfold date. rewrite Hd, Hn, Hns, Hs. simpl. by rewrite Hd.
    + unfold date at 1. by rewrite Hdate.
  - destruct (isFile h raw) eqn:Hf; [by rewrite Hf|done].
Qed.

(** X8: a missing value.  Over a raw value that is [undefined] or [null]
    every scalar field stores [null]; extraction of the field then gives
    [null] when the tag is optional and throws the validation error when it
    is required. *)
Theorem missing_value_extraction `{!HostLaws} (tag : string) (path : list pkey)
    (value : value) (setValue : setter) (h : heap) :
  tag ∈ scalar_tags →
  nullish value = true →
  ∃ type required,
    createField (STag tag) path value setValue h
    = (Return (ScalarField type path required VNull setValue), h)
    ∧ (tag ∈ required_tags ↔ required = true)
    ∧ ∀ h2, getFieldData h2 (ScalarField type path required VNull setValue)
            = if required
              then Throw ("field " +:+ join_path path +:+ " is required; got "
                          +:+ JSON_stringify h2 VNull)
              else Return (DValue VNull).
Proof.
  intros [[type required] Htag]%scalar_tag_recognised Hnull.
  destruct (guards_reject_null value Hnull) as (Hs & Hn & Hd & Hns).
  destruct (guards_reject_null VNull eq_refl) as (_ & _ & Hd0 & Hns0).
  exists type, required. rewrite createField_STag, Htag.
  assert (stored h type value = VNull) as ->.
  { destruct type; simpl; rewrite ?Hs, ?Hn, ?Hd; try done.
    - by destruct value.
    - unfold date. rewrite Hd, Hn, Hns, Hs. simpl. by rewrite Hd0.
    - by destruct value. }
  split; [done|]. split.
  - revert Htag. unfold scalar_tag, required_tags.
    repeat match goal with
           | |- context [String.eqb tag ?s] =>
               destruct (String.eqb_spec tag s) as [->|_];
                 [intros [= <- <-]; rewrite !elem_of_cons, elem_of_nil;
                  split;
                  [intros Hin;
                   first [ reflexivity
                         | repeat (destruct Hin as [Hin|Hin]; [discriminate|]); done ]
                  |intros Hreq; first [discriminate|by eauto 10]]|]
           end.
    done.
  - intros h2. destruct type, required; simpl;
      unfold getNumberFieldData, getDateFieldData, getFileFieldData;
      by rewrite ?Hns0, ?Hd0.
Qed.

(** ** Extracted data has the shape of the schema *)

Lemma scalar_extraction_conforms `{!HostLaws} (tag : string) (type : scalar_type)
    (required : bool) (path : list pkey) (raw : value) (setValue : setter)
    (h h2 : heap) (d : data) :
  scalar_tag tag = Some (type, required) →
  getFieldData h2 (ScalarField type path required (stored h type raw) setValue)
  = Return d →
  conforms h2 (STag tag) d.
Proof.
  intros Htag. pose proof (scalar_tag_tags_of _ _ _ Htag) as Hin.
  pose proof (stored_typed h type raw) as Htyped.
  assert (∀ ty, scalar_tag tag = Some (ty, false) → conforms h2 (STag tag) (DValue VNull))
    as Hnull by (intros ty; apply cf_null).
  destruct type; simpl in *.
  - unfold getStringFieldData.
    destruct Htyped as [->|[s ->]]; simpl.
    + destruct required; [done|]. intros [= <-]. by eapply Hnull.
    + intros [= <-]. by apply cf_string.
  - unfold getNumberFieldData. destruct (isNumberString _).
    + intros [= <-]. by apply cf_number.
    + destruct required; [done|]. intros [= <-]. by eapply Hnull.
  - unfold getBooleanFieldData.
    destruct Htyped as [->|[b ->]]; simpl.
    + destruct required; [done|]. intros [= <-]. by eapply Hnull.
    + intros [= <-]. by apply cf_boolean.
  - unfold getDateFieldData. destruct (isDate (date raw)) eqn:Hd.
    + intros [= <-]. destruct (isDate_guard _ Hd) as [t Ht]. rewrite Ht in *.
      by apply cf_date.
    + destruct required; [done|]. intros [= <-]. by eapply Hnull.
  - unfold getFileFieldData.
    destruct (isFile h2 (if isFile h raw then raw else VNull)) eqn:Hf.
    + intros [= <-]. by apply cf_file.
    + destruct required; [done|]. intros [= <-]. by eapply Hnull.
Qed.

(** X9: what extraction returns has the shape of the schema.  For a field
    tree built from a well-formed schema keyed by names, over a raw value
    whose arrays have no empty or [undefined] slot and whose objects are
    ordinary objects, data that extraction returns has a value of the
    declared type at every scalar ([null] only under an optional tag, so
    never under a required one), an array at every array schema, and at
    every object schema an object with exactly the keys of the schema, in
    their order.  (An empty slot of an array would pass through [map] into
    the data as an empty slot, whatever the tag.) *)
Theorem extraction_conforms `{!HostLaws} (type : schema) :
  wf_schema type →
  named_keys type →
  ∀ path value setValue h h1 f,
    dense h type value →
    createField type path value setValue h = (Return f, h1) →
    ∀ h2 d, getFieldData h2 f = Return d → conforms h2 type d.
Proof.
  intros Hwf _.
  enough (∀ path value setValue h h1 f,
            createField type path value setValue h = (Return f, h1) →
            ∀ h2 d, getFieldData h2 f = Return d → conforms h2 type d) as Hcore.
  { intros path value setValue h h1 f _. apply Hcore. }
  revert Hwf.
  induction type as [tag|items IH|entries IH|shown] using schema_induction;
    intros Hwf; inversion Hwf as [tag' Htag|t Ht|es Hkeys Hall]; subst;
    intros path value setValue h h1 f.
  - rewrite createField_STag.
    destruct (scalar_tag tag) as [[ty req]|] eqn:Hst; [|done].
    intros [= <- <-] h2 d. by apply scalar_extraction_conforms.
  - apply Forall_cons in IH as [IH _].
    intros (fs & -> & Hlen & Hsub)%createField_SArray_spec h2 d. simpl.
    unfold mbind, outcome_bind.
    destruct (map_fields (getFieldData h2) fs) as [ds|] eqn:Hmap; [|done].
    intros [= <-]. apply cf_array.
    apply map_fields_inv in Hmap.
    eapply Forall2_Forall_r; [exact Hmap|].
    apply Forall_lookup. intros i fi Hfi d Hd.
    destruct (Array_isArray h value); [|by destruct fs].
    destruct (lookup_lt_is_Some_2 (elements h (backing_array h value)) i) as [x Hx].
    { rewrite <-Hlen. by eapply lookup_lt_Some. }
    destruct (Hsub i x fi Hx Hfi) as (h' & h'' & _ & Hbuild).
    by eapply (IH Ht).
  - intros Hbuild h2 d.
    apply createField_SObject_spec in Hbuild as (fs & -> & Hfs); [|done].
    simpl. unfold mbind, outcome_bind.
    destruct (object_data (getFieldData h2) fs []) as [kvs|] eqn:Hdata; [|done].
    intros [= <-]. apply cf_object.
    apply object_data_inv in Hdata as (ds & -> & Hds).
    + simpl.
      assert (Forall (λ kv : string * schema,
                ∀ path value setValue h h1 f,
                  createField kv.2 path value setValue h = (Return f, h1) →
                  ∀ h2 d, getFieldData h2 f = Return d → conforms h2 kv.2 d) entries)
        as IH'.
      { rewrite Forall_forall in *. intros kv Hin. by apply IH, Hall. }
      eapply (Forall2_impl_Forall_l _
                (λ kv kd, kv.1 = kd.1 ∧ ∃ f, built_by kv.2 f
                            ∧ getFieldData h2 f = Return kd.2)); [exact IH'| |].
      * eapply Forall2_trans; [|exact Hfs|exact Hds].
        intros kv kf kd (Hk1 & h' & h'' & _ & Hb) (Hk2 & Hd).
        split; [congruence|]. exists kf.2. split; [|done].
        by eexists _, _, _, _, _.
      * intros kv kd Hkv (Hk & f & (p & v & s & h3 & h4 & Hb) & Hd).
        split; [done|]. by eapply Hkv.
    + simpl. by rewrite (Forall2_fst_eq _ _ _ Hfs).
Qed.

(** ** The sub-fields of an object field *)

Lemma assoc_get_Forall2 {A B} (R : string * A → string * B → Prop)
    (l : list (string * A)) (k : list (string * B)) (key : string) (a : A) :
  NoDup l.*1 →
  Forall2 (λ x y, x.1 = y.1 ∧ R x y) l k →
  (key, a) ∈ l →
  ∃ b, assoc_get key k = Some b ∧ R (key, a) (key, b).
Proof.
  intros Hdup Hlk. induction Hlk as [|[k1 a1] [k2 b1] l k [Hk HR] _ IH]; simpl in *.
  - by intros ?%elem_of_nil.
  - subst k2. apply NoDup_cons in Hdup as [Hnotin Hdup].
    intros [[= <- <-]|Hin]%elem_of_cons.
    + exists b1. by rewrite String.eqb_refl.
    + destruct (String.eqb_spec k1 key) as [->|_]; [|by apply IH].
      destruct Hnotin. apply list_elem_of_fmap. by exists (key, a).
Qed.

Lemma subfield_spec (entries : list (string * schema)) (path : list pkey)
    (value : value) (setValue : setter) (h h1 : heap) (F : field)
    (key : string) (type : schema) :
  NoDup entries.*1 →
  (key, type) ∈ entries →
  createField (SObject entries) path value setValue h = (Return F, h1) →
  ∃ f h' h'',
    subfield key F = Some f
    ∧ grows h h'
    ∧ createField type (path ++ [KStr key])
        (if is_object_typed value then get_prop h value key else VUndefined)
        (key_setter setValue (backing_object h value) key) h'
      = (Return f, h'').
Proof.
  intros Hdup Hin (fs & -> & Hfs)%createField_SObject_spec; [|done].
  destruct (assoc_get_Forall2 _ _ _ key type Hdup Hfs Hin)
    as (f & Hf & h' & h'' & Hh' & Hbuild).
  by exists f, h', h''.
Qed.

(** X10: over a raw value that is an ordinary object, or is not
    object-typed, the field an object field holds under a key of its schema
    is the field [createField] builds for the schema of that key, under the
    path of the object followed by the key, over the value the raw object
    holds under the key: [undefined] when the raw value is not object-typed
    or is an object without the key, so that a scalar field there stores
    [null].  The key is not one of the names an object inherits, which read
    as the inherited member. *)
Theorem object_field_subfields `{!HostLaws} (entries : list (string * schema))
    (path : list pkey) (value : value) (setValue : setter) (h h1 : heap) (F : field)
    (key : string) (type : schema) :
  NoDup entries.*1 →
  (key, type) ∈ entries →
  key ∉ inherited_names →
  is_object_typed value = false ∨ plain h value →
  createField (SObject entries) path value setValue h = (Return F, h1) →
  ∃ f h' h'',
    subfield key F = Some f
    ∧ grows h h'
    ∧ createField type (path ++ [KStr key])
        (if is_object_typed value then get_prop h value key else VUndefined)
        (key_setter setValue (backing_object h value) key) h'
      = (Return f, h'')
    ∧ ((is_object_typed value = false
        ∨ ∃ l props, value = VRef l ∧ h !! l = Some (HObj props) ∧ props !! key = None) →
       ∀ tag, type = STag tag → tag ∈ scalar_tags →
         ∃ ty required, f = ScalarField ty (path ++ [KStr key]) required VNull
                              (key_setter setValue (backing_object h value) key)).
Proof.
  intros Hdup Hin _ _ Hbuild.
  destruct (subfield_spec _ _ _ _ _ _ _ _ _ Hdup Hin Hbuild)
    as (f & h' & h'' & Hf & Hh' & Hsub).
  exists f, h', h''. split; [done|]. split; [done|]. split; [done|].
  intros Hmissing tag -> [[ty required] Htag]%scalar_tag_recognised.
  assert ((if is_object_typed value then get_prop h value key else VUndefined)
          = VUndefined) as Hraw.
  { destruct Hmissing as [->|(l & props & -> & Hl & Hkey)]; [done|].
    simpl. by rewrite Hl, Hkey. }
  rewrite Hraw, createField_STag, Htag in Hsub. injection Hsub as <- _.
  exists ty, required. do 2 f_equal.
  destruct (guards_reject_null VUndefined eq_refl) as (Hs & Hn & Hd & Hns).
  destruct (guards_reject_null VNull eq_refl) as (_ & _ & Hd0 & _).
  destruct ty; simpl; rewrite ?Hs, ?Hn, ?Hd; try done.
  unfold date. rewrite Hd, Hn, Hns, Hs. simpl. by rewrite Hd0.
Qed.

(** A write through a field, seen by the form built next.  [setValue] is a
    callback that leaves the backing object [l] as the field wrote it. *)
Lemma set_prop_lookup (l : loc) (key : string) (x : value) (h : heap)
    (props : gmap string value) :
  h !! l = Some (HObj props) →
  set_prop (VRef l) key x h !! l = Some (HObj (<[key := x]> props)).
Proof.
  intros Hl. simpl. rewrite Hl. apply list_lookup_insert_eq. by eapply lookup_lt_Some.
Qed.

Lemma call1_scalar (type : scalar_type) (path : list pkey) (required : bool)
    (val x : value) (setValue : setter) (h : heap) :
  call1 (ScalarField type path required val setValue) x h = (Return x, setValue x h).
Proof. reflexivity. Qed.

(** X11: write, then rebuild, over an ordinary object.  Calling the scalar
    field under a [key] other than [__proto__] with [x] sets that property
    of the backing object, and building the form again over the same object
    gives a field under [key] that stores the conversion of [x], whatever
    the object held there before; the fields under the other keys (those
    that are not names an object inherits) are built over what the object
    held. *)
Theorem write_then_rebuild (entries : list (string * schema)) (path path' : list pkey)
    (l : loc) (props : gmap string value) (setValue setValue' : setter)
    (key tag : string) (type : scalar_type) (required : bool) (x : value)
    (h h1 h2 h4 : heap) (F F' f : field) :
  NoDup entries.*1 →
  (key, STag tag) ∈ entries →
  key ≠ "__proto__" →
  scalar_tag tag = Some (type, required) →
  createField (SObject entries) path (VRef l) setValue h = (Return F, h1) →
  subfield key F = Some f →
  h2 !! l = Some (HObj props) →
  (∀ y h0, setValue y h0 !! l = h0 !! l) →
  createField (SObject entries) path' (VRef l) setValue' (snd (call1 f x h2))
  = (Return F', h4) →
  fst (call1 f x h2) = Return x
  ∧ snd (call1 f x h2) !! l = Some (HObj (<[key := x]> props))
  ∧ (∃ h', grows (snd (call1 f x h2)) h'
       ∧ subfield key F'
         = Some (ScalarField type (path' ++ [KStr key]) required (stored h' type x)
                   (key_setter setValue' (VRef l) key)))
  ∧ ∀ key' type', (key', type') ∈ entries → key' ≠ key → key' ∉ inherited_names →
      ∃ f' h' h'', subfield key' F' = Some f'
        ∧ createField type' (path' ++ [KStr key'])
            (default VUndefined (props !! key'))
            (key_setter setValue' (VRef l) key') h' = (Return f', h'').
Proof.
  intros Hdup Hin _ Htag Hbuild Hsub Hl Hset Hrebuild.
  destruct (subfield_spec _ _ _ _ _ _ _ _ _ Hdup Hin Hbuild)
    as (f0 & h' & h'' & Hf0 & _ & Hbuild0).
  rewrite Hsub in Hf0. injection Hf0 as <-.
  rewrite createField_STag, Htag in Hbuild0. injection Hbuild0 as <- <-.
  rewrite call1_scalar in *.
  change (key_setter setValue (backing_object h (VRef l)) key x h2)
    with (setValue (VRef l) (set_prop (VRef l) key x h2)) in *.
  cbn [fst snd] in *.
  assert (setValue (VRef l) (set_prop (VRef l) key x h2) !! l
          = Some (HObj (<[key := x]> props))) as Hl3.
  { rewrite Hset. by apply set_prop_lookup. }
  assert (∀ k, get_prop (setValue (VRef l) (set_prop (VRef l) key x h2)) (VRef l) k
               = default VUndefined (<[key := x]> props !! k)) as Hread.
  { intros k. unfold get_prop. by rewrite Hl3. }
  split; [done|]. split; [done|]. split.
  - destruct (subfield_spec _ _ _ _ _ _ _ _ _ Hdup Hin Hrebuild)
      as (f1 & h3 & h5 & Hf1 & Hh3 & Hbuild1).
    rewrite Hread, lookup_insert_eq in Hbuild1.
    rewrite createField_STag, Htag in Hbuild1. injection Hbuild1 as <- <-.
    by exists h3.
  - intros key' type' Hin' Hne _.
    destruct (subfield_spec _ _ _ _ _ _ _ _ _ Hdup Hin' Hrebuild)
      as (f1 & h3 & h5 & Hf1 & Hh3 & Hbuild1).
    rewrite Hread, lookup_insert_ne in Hbuild1 by done.
    by exists f1, h3, h5.
Qed.

(** ** Extraction reads what the fields captured *)

Lemma primitive_leaves_array (path : list pkey) (v : loc) (setValue : setter)
    (fields : list field) :
  primitive_leaves (ArrayField path v setValue fields) → Forall primitive_leaves fields.
Proof.
  unfold primitive_leaves. simpl. induction fields as [|f fields IH]; [done|].
  intros [Hf Hrest]%Forall_app. constructor; [done|by apply IH].
Qed.

Lemma primitive_leaves_object (o : list (string * field)) :
  primitive_leaves (ObjectField o) → Forall (λ kf, primitive_leaves kf.2) o.
Proof.
  unfold primitive_leaves. simpl. induction o as [|[k f] o IH]; [done|].
  intros [Hf Hrest]%Forall_app. constructor; [done|by apply IH].
Qed.

Lemma getFieldData_heap (h h' : heap) (f : field) (d : data) :
  primitive_leaves f → getFieldData h f = Return d → getFieldData h' f = Return d.
Proof.
  revert d.
  induction f as [type path required value setValue|path v setValue fields IH|o IH|t]
    using field_induction; intros d Hfree.
  - destruct type; simpl.
    + unfold getStringFieldData. by destruct (nullish value && required).
    + unfold getNumberFieldData. destruct (isNumberString value); [done|].
      by destruct required.
    + unfold getBooleanFieldData. by destruct (nullish value && required).
    + unfold primitive_leaves in Hfree. simpl in Hfree. by apply Forall_cons in Hfree as [[] _].
    + unfold primitive_leaves in Hfree. simpl in Hfree. by apply Forall_cons in Hfree as [[] _].
  - apply primitive_leaves_array in Hfree. simpl. unfold mbind, outcome_bind.
    destruct (map_fields (getFieldData h) fields) as [ds|] eqn:Hmap; [|done].
    intros [= <-].
    assert (map_fields (getFieldData h') fields = Return ds) as ->; [|done].
    clear -IH Hfree Hmap. revert ds Hmap.
    induction fields as [|f fields IHfields]; intros ds; simpl; [done|].
    apply Forall_cons in IH as [Hf IH]. apply Forall_cons in Hfree as [Hfree1 Hfree].
    unfold mbind, outcome_bind.
    destruct (getFieldData h f) as [d1|] eqn:Hd1; [|done].
    rewrite (Hf d1 Hfree1 eq_refl).
    destruct (map_fields (getFieldData h) fields) as [ds1|]; [|done].
    by rewrite (IHfields IH Hfree ds1 eq_refl).
  - apply primitive_leaves_object in Hfree. simpl. unfold mbind, outcome_bind.
    destruct (object_data (getFieldData h) o []) as [kvs|] eqn:Hdata; [|done].
    intros [= <-].
    assert (object_data (getFieldData h') o [] = Return kvs) as ->; [|done].
    clear -IH Hfree Hdata. revert kvs Hdata. generalize (@nil (string * data)) as acc.
    induction o as [|[key f] o IHo]; intros acc kvs; simpl; [done|].
    apply Forall_cons in IH as [Hf IH]. apply Forall_cons in Hfree as [Hfree1 Hfree].
    unfold mbind, outcome_bind. simpl in *.
    destruct (getFieldData h f) as [d1|] eqn:Hd1; [|done].
    rewrite (Hf d1 Hfree1 eq_refl). by apply IHo.
  - done.
Qed.

(** X12: extraction reads the values the fields captured when they were
    built, not the backing objects and arrays.  For a field tree whose
    scalar fields are string, number and boolean fields, what extraction
    returns does not depend on the heap: after any writes to the backing
    objects and arrays, through its own fields or otherwise, the same tree
    extracts to the same data, and a tree whose extraction throws goes on
    throwing until the form is built again.  (A date field and a file field
    hold an object of the caller, which extraction tests again.) *)
Theorem extraction_reads_captured (f : field) (h h' : heap) :
  primitive_leaves f →
  (∀ d, getFieldData h f = Return d → getFieldData h' f = Return d)
  ∧ (∀ msg, getFieldData h f = Throw msg → ∃ msg', getFieldData h' f = Throw msg')
  ∧ ∀ sub x d, getFieldData h f = Return d →
      getFieldData (snd (call1 sub x h)) f = Return d.
Proof.
  intros Hfree.
  assert (∀ h1 h2 msg, getFieldData h1 f = Throw msg →
            ∃ msg', getFieldData h2 f = Throw msg') as Hthrow.
  { intros h1 h2 msg Hmsg. destruct (getFieldData h2 f) as [d|msg'] eqn:Hd; [|by eexists].
    apply (getFieldData_heap h2 h1) in Hd; [congruence|done]. }
  split; [intros d; by apply getFieldData_heap|]. split; [by apply Hthrow|].
  intros sub x d. by apply getFieldData_heap.
Qed.

(** ** Writing through every sub-field *)




End More.

(** * The properties on the sample host *)

Lemma sample_laws : HostLaws.
Proof.
  split.
  - intros [] Hv; try discriminate. by eexists.
  - intros [] Hv; try discriminate. by eexists.
  - intros [] Hv; try discriminate. by eexists.
  - intros [] Hv; try discriminate. by eexists.
  - done.
  - done.
Qed.

#[export] Existing Instance sample_laws.

(** *** Numbers of the sample host *)

Lemma digit_of_pretty_char (x : N) :
  (x < 10)%N → digit_of_ascii (pretty_N_char x) = Some (N.to_nat x).
Proof.
  intros Hx.
  assert (x = 0 ∨ x = 1 ∨ x = 2 ∨ x = 3 ∨ x = 4 ∨ x = 5 ∨ x = 6 ∨ x = 7 ∨ x = 8 ∨ x = 9)%N
    as Hcase by lia.
  repeat (destruct Hcase as [->|Hcase]; [reflexivity|]). by subst.
Qed.

Lemma digits_value_pretty_go (x : N) (s : string) :
  digits_value 0 (pretty_N_go x s) = digits_value (N.to_nat x) s.
Proof.
  revert s. induction (N.lt_wf_0 x) as [x _ IH]. intros s.
  assert (x = 0 ∨ 0 < x)%N as [->|Hx] by lia; [by rewrite pretty_N_go_0|].
  rewrite pretty_N_go_step by done.
  rewrite IH by (by apply N.div_lt). simpl.
  rewrite digit_of_pretty_char by (by apply N.mod_lt).
  f_equal. pose proof (N.div_mod x 10 ltac:(done)) as Hdm. lia.
Qed.

Lemma digits_value_pretty (p : positive) :
  digits_value 0 (pretty p) = Some (Pos.to_nat p).
Proof.
  unfold pretty, pretty_positive, pretty, pretty_N.
  rewrite decide_False by done.
  rewrite digits_value_pretty_go. simpl. done.
Qed.

Lemma parse_int_pretty (z : Z) : parse_int (pretty z) = Some z.
Proof.
  destruct z as [|p|p]; [done|..].
  - change (pretty (Z.pos p)) with (pretty p).
    pose proof (digits_value_pretty p) as Hp.
    unfold parse_int. destruct (pretty p) as [|c rest] eqn:Hs;
      [simpl in Hp; injection Hp; lia|].
    destruct (Ascii.eqb_spec c (Ascii.ascii_of_nat 45)) as [->|_].
    + simpl in Hp. done.
    + rewrite Hp. simpl. f_equal. lia.
  - change (pretty (Z.neg p)) with (String (Ascii.ascii_of_nat 45) (pretty p)).
    pose proof (digits_value_pretty p) as Hp.
    unfold parse_int. rewrite Ascii.eqb_refl.
    destruct (pretty p) as [|c rest] eqn:Hs; [simpl in Hp; injection Hp; lia|].
    rewrite Hp. simpl. f_equal. lia.
Qed.

(** On the sample host every integer prints as a numeric string that reads
    back as that integer. *)
Lemma sample_prints_back (z : Z) : prints_back (Some z).
Proof.
  split; [done|]. split; simpl.
  - rewrite parse_int_pretty. done.
  - pose proof (parse_int_pretty z) as Hz.
    destruct (pretty z); [done|]. exact Hz.
Qed.

(** C1, as stated, fails: after [fields.email("new")] the same field still
    returns ["old"]; the new value is in the backing object only. *)
Lemma scalar_field_read_after_write_counterexample :
  fst ((fields ← createForm login_scheme (VRef 0) (record 1);
        email ← member "email" fields;
        _ ← call1 email (VStr "new");
        call0 email) login_heap) = Return (VStr "old")
  ∧ fst ((fields ← createForm login_scheme (VRef 0) (record 1);
          email ← member "email" fields;
          _ ← call1 email (VStr "new");
          call0 email) login_heap) ≠ Return (VStr "new").
Proof. split; [by vm_compute|]. vm_compute. discriminate. Qed.

Lemma scalar_field_call_witness :
  elements (snd (call1 (createScalarField TString [KStr "email"] true (VStr "old")
                          (record 1)) (VStr "new") login_heap)) 1
  = [] ++ [VStr "new"].
Proof.
  apply (proj2 (proj2 (scalar_field_call TString [KStr "email"] true (VStr "old")
                         (VStr "new") (record 1) login_heap)) 1 []).
  reflexivity.
Defined.

Lemma number_field_extraction_witness :
  getFieldData [] (ScalarField TNumber [KStr "age"] true (VStr "36") (record 0))
  = Return (DValue (VNum (Some 36%Z)))
  ∧ getFieldData [] (ScalarField TNumber [KStr "age"] true (VStr "x") (record 0))
    = Throw ("field age is required; got " +:+ quote_mark +:+ "x" +:+ quote_mark)
  ∧ getFieldData [] (ScalarField TNumber [KStr "age"] false (VStr "x") (record 0))
    = Return (DValue VNull).
Proof.
  split; [|split].
  - etrans; [apply (number_field_extraction [KStr "age"] true (VStr "36") (record 0) [])|].
    by vm_compute.
  - etrans; [apply (number_field_extraction [KStr "age"] true (VStr "x") (record 0) [])|].
    by vm_compute.
  - etrans; [apply (number_field_extraction [KStr "age"] false (VStr "x") (record 0) [])|].
    by vm_compute.
Defined.

(** The profile form, built and extracted: the age, held as a number, and
    the zip code, held as a string, both come out as numbers. *)
Lemma profile_round_trip :
  fst ((fields ← createForm profile_scheme (VRef 0) (record 9);
        extract fields) profile_heap)
  = Return (DObj [("name", DValue (VStr "Ada")); ("age", DValue (VNum (Some 36%Z)));
                  ("zip", DValue (VNum (Some 1010%Z))); ("admin", DValue (VBool false));
                  ("born", DValue (VDate (Some 0%Z))); ("photo", DValue (VRef 2));
                  ("tags", DArr [DValue (VStr "a"); DValue (VStr "b")]);
                  ("address", DObj [("street", DValue (VStr "Main"))])]).
Proof. by vm_compute. Qed.





Lemma required_null_raises_witness :
  getFieldData [] (ScalarField TString [KStr "user"; KIdx 0; KStr "email"] true VNull
                     (record 0))
  = Throw "field user.0.email is required; got null".
Proof.
  etrans.
  - eapply (proj1 required_null_raises "string" [KStr "user"; KIdx 0; KStr "email"]
              VUndefined (record 0) []).
    + by repeat constructor.
    + reflexivity.
    + reflexivity.
  - by vm_compute.
Defined.

(** A form whose second required field is missing: extraction throws the
    error of that field, and returns no data. *)
Lemma login_extraction_fails :
  fst ((fields ← createForm login_scheme (VRef 0) (record 1);
        extract fields) login_heap)
  = Throw "field password is required; got null".
Proof. by vm_compute. Qed.

Lemma profile_scheme_well_formed : wf_schema (SObject profile_scheme).
Proof.
  apply wf_object.
  - apply (bool_decide_unpack _). by vm_compute.
  - unfold profile_scheme.
    repeat (apply List.Forall_cons;
            [simpl; first [ apply wf_tag; by repeat constructor
                          | apply wf_array, wf_tag; by repeat constructor
                          | idtac ]|]); [|apply List.Forall_nil].
    apply wf_object; [apply (bool_decide_unpack _); by vm_compute|].
    apply List.Forall_cons; [|apply List.Forall_nil].
    apply wf_tag. by repeat constructor.
Qed.

Lemma build_never_raises_witness :
  ∃ f h', createField (SObject profile_scheme) [] (VStr "not an object") (record 0) []
          = (Return f, h').
Proof.
  apply (proj1 build_never_raises (SObject profile_scheme)).
  exact profile_scheme_well_formed.
Defined.

(** Built over values of the wrong shape, the profile form extracts to
    the error of its first required field. *)
Lemma profile_over_nothing :
  fst ((fields ← createForm profile_scheme VUndefined (record 0);
        extract fields) [HArr []])
  = Throw "field name is required; got null".
Proof. by vm_compute. Qed.


Lemma login_form_built :
  createField (SObject login_scheme) [] (VRef 0) (record 1) login_heap
  = (Return
       (ObjectField
          [("email", ScalarField TString [KStr "email"] true (VStr "old")
                       (key_setter (record 1) (VRef 0) "email"));
           ("password", ScalarField TString [KStr "password"] true VNull
                          (key_setter (record 1) (VRef 0) "password"))]),
     login_heap).
Proof. cbn. unfold createObjectField. cbn. reflexivity. Qed.


(** The code at the failing input of C7: on the tags ["a"; "b"; "c"],
    [fields.tags.splice(1)] returns the empty list and leaves the three
    tags in place. *)
Lemma splice_without_count_on_form :
  fst ((fields ← createForm tags_scheme (VRef 0) (record 2);
        tags ← member "tags" fields;
        splice tags 1 None []) tags_heap) = Return []
  ∧ elements (snd ((fields ← createForm tags_scheme (VRef 0) (record 2);
                    tags ← member "tags" fields;
                    splice tags 1 None []) tags_heap)) 1
    = [VStr "a"; VStr "b"; VStr "c"]
  ∧ fst (Array_splice 1 1 None [] tags_heap) = Return [VStr "b"; VStr "c"]
  ∧ elements (snd (Array_splice 1 1 None [] tags_heap)) 1 = [VStr "a"].
Proof. repeat split; by vm_compute. Qed.

Lemma splice_without_count_witness :
  splice (ArrayField [KStr "tags"] 1 (record 2) []) 1 None [] tags_heap
  = (Return [],
     record 2 (VRef 1) (<[1 := HArr [VStr "a"; VStr "b"; VStr "c"]]> tags_heap))
  ∧ Array_splice 1 1 None [] tags_heap
    = (Return [VStr "b"; VStr "c"], <[1 := HArr [VStr "a"]]> tags_heap).
Proof.
  exact (splice_without_count [KStr "tags"] 1 (record 2) [] [VStr "a"; VStr "b"; VStr "c"]
           [] 1 tags_heap eq_refl).
Defined.

(** The example of the specification: [fields.tags.push("c")] on the tags
    ["a"; "b"] returns [3], and [fields.tags()] then returns the array
    ["a"; "b"; "c"]. *)
Lemma push_example :
  fst ((fields ← createForm tags_scheme (VRef 0) (record 2);
        tags ← member "tags" fields;
        push tags [VStr "c"])
         [HObj {["tags" := VRef 1]}; HArr [VStr "a"; VStr "b"]; HArr []])
  = Return 3
  ∧ (let '(r, h) :=
       (fields ← createForm tags_scheme (VRef 0) (record 2);
        tags ← member "tags" fields;
        _ ← push tags [VStr "c"];
        call0 tags)
         [HObj {["tags" := VRef 1]}; HArr [VStr "a"; VStr "b"]; HArr []] in
     r = Return (VRef 1) ∧ elements h 1 = [VStr "a"; VStr "b"; VStr "c"]).
Proof. split; by vm_compute. Qed.

Lemma array_field_call_witness :
  call1 (ArrayField [KStr "tags"] 1 (record 2) []) (VRef 2) [HArr []; HArr []; HArr []]
  = (Return (VRef 2), record 2 (VRef 2) [HArr []; HArr []; HArr []])
  ∧ call0 (ArrayField [KStr "tags"] 1 (record 2) [])
      (record 2 (VRef 2) [HArr []; HArr []; HArr []])
    = (Return (VRef 1), record 2 (VRef 2) [HArr []; HArr []; HArr []]).
Proof.
  destruct (array_field_call [STag "string"] [KStr "tags"] (VRef 1) (record 2)
              [HArr []; HArr []; HArr []] [HArr []; HArr []; HArr []]
              (ArrayField [KStr "tags"] 1 (record 2) []) eq_refl) as (_ & _ & Hcall).
  destruct (Hcall (VRef 2) [HArr []; HArr []; HArr []]) as [Hset Hget].
  split; [exact Hset|apply Hget].
Defined.

Lemma date_field_of_string_witness :
  date (VStr "1000") = VDate (Some 1000%Z) ∧ date (VStr "soon") = VNull.
Proof.
  destruct (date_field_of_string "date" [KStr "born"] "1000" (record 0) [])
    as (_ & _ & Hnumeric & _); [by repeat constructor|].
  destruct (date_field_of_string "date?" [KStr "born"] "soon" (record 0) [])
    as (_ & _ & _ & Hother); [by repeat constructor|].
  split.
  - etrans; [by apply Hnumeric|]. by vm_compute.
  - etrans; [by apply Hother|]. by vm_compute.
Defined.

Lemma pop_shift_on_empty_witness :
  pop (ArrayField [KStr "tags"] 0 (record 1) []) [HArr []; HArr []]
  = (Return VUndefined, record 1 (VRef 0) [HArr []; HArr []])
  ∧ shift (ArrayField [KStr "tags"] 0 (record 1) []) [HArr []; HArr []]
    = (Return VUndefined, record 1 (VRef 0) [HArr []; HArr []])
  ∧ record 1 (VRef 0) [HArr []; HArr []] !! 1 = Some (HArr ([] ++ [VRef 0]))
  ∧ record 1 (VRef 0) [HArr []; HArr []] !! 0 = Some (HArr []).
Proof.
  destruct (pop_shift_on_empty [STag "string"] [KStr "tags"] (VRef 0) (record 1)
              [HArr []; HArr []] [HArr []; HArr []] [HArr []; HArr []]
              (ArrayField [KStr "tags"] 0 (record 1) []) eq_refl eq_refl)
    as (Hpop & Hshift & Hlog).
  split; [exact Hpop|]. split; [exact Hshift|].
  apply (Hlog 1 []); [discriminate|reflexivity].
Defined.

Lemma array_helpers_witness :
  push (ArrayField [KStr "tags"] 1 (record 2) []) [VStr "d"] tags_heap
  = (Return (3 + 1),
     record 2 (VRef 1)
       (<[1 := HArr ([VStr "a"; VStr "b"; VStr "c"] ++ [VStr "d"])]> tags_heap))
  ∧ pop (ArrayField [KStr "tags"] 1 (record 2) []) tags_heap
    = (Return (VStr "c"), record 2 (VRef 1) (<[1 := HArr [VStr "a"; VStr "b"]]> tags_heap)).
Proof.
  destruct (array_helpers [KStr "tags"] 1 (record 2) [] [VStr "a"; VStr "b"; VStr "c"]
              tags_heap eq_refl) as (Hpush & _ & Hpop & _).
  split; [exact (Hpush [VStr "d"])|].
  exact (Hpop [VStr "a"; VStr "b"] (VStr "c") eq_refl).
Defined.

(** * More of the program, on the sample host *)

Lemma tags_form_built :
  createField (SObject tags_scheme) [] (VRef 0) (record 2) tags_heap
  = (Return tags_form, tags_heap).
Proof. cbn. unfold createObjectField. cbn. unfold createArrayField. cbn. reflexivity. Qed.

Lemma tags_field_built :
  createField (SArray [STag "string"]) [KStr "tags"] (VRef 1) (record 2) tags_heap
  = (Return tags_field, tags_heap).
Proof. cbn. unfold createArrayField. cbn. reflexivity. Qed.

Lemma login_form_created :
  createForm login_scheme (VRef 0) (record 1) login_heap = (Return login_form, login_heap).
Proof. unfold createForm. cbn. unfold createObjectField. cbn. reflexivity. Qed.

Lemma login_keys_distinct : NoDup login_scheme.*1.
Proof. apply (bool_decide_unpack _). by vm_compute. Qed.

Lemma tags_scheme_well_formed : wf_schema (SObject tags_scheme).
Proof.
  apply wf_object.
  - apply (bool_decide_unpack _). by vm_compute.
  - unfold tags_scheme. apply List.Forall_cons; [|apply List.Forall_nil].
    simpl. apply wf_array, wf_tag. by repeat constructor.
Qed.

Lemma login_scheme_well_formed : wf_schema (SObject login_scheme).
Proof.
  apply wf_object; [exact login_keys_distinct|].
  unfold login_scheme.
  repeat (apply List.Forall_cons; [simpl; apply wf_tag; by repeat constructor|]).
  apply List.Forall_nil.
Qed.

(** The recording callback writes to its log only. *)
Lemma record_elsewhere (log l : loc) (y : value) (h : heap) :
  l ≠ log → record log y h !! l = h !! l.
Proof.
  intros Hl. unfold record. destruct (h !! log) as [[props|calls]|]; try done.
  by rewrite list_lookup_insert_ne.
Qed.

(** The tags field enumerates its three sub-fields. *)
Lemma array_field_subfields_witness :
  ∃ fs, iterate tags_field = Return fs ∧ length fs = 3.
Proof.
  assert (VUndefined ∉ elements tags_heap (backing_array tags_heap (VRef 1))) as Hdense.
  { change (VUndefined ∉ [VStr "a"; VStr "b"; VStr "c"]).
    rewrite !not_elem_of_cons. repeat split; try discriminate. apply not_elem_of_nil. }
  destruct (array_field_subfields (STag "string") [] [KStr "tags"] (VRef 1) (record 2)
              tags_heap tags_heap tags_field Hdense tags_field_built)
    as (fs & Hiter & _ & Hlen & _).
  exists fs. split; [exact Hiter|]. exact (Hlen eq_refl).
Defined.

(** Calling the second tag with ["z"] replaces the element at [1] and
    hands the array to the callback. *)
Lemma array_element_write_witness :
  call1 (ScalarField TString [KStr "tags"; KIdx 1] true (VStr "b")
           (index_setter (record 2) 1 1)) (VStr "z") tags_heap
  = (Return (VStr "z"), record 2 (VRef 1) (set_index 1 1 (VStr "z") tags_heap))
  ∧ set_index 1 1 (VStr "z") tags_heap
    = <[1 := HArr (<[1 := VStr "z"]> [VStr "a"; VStr "b"; VStr "c"])]> tags_heap.
Proof.
  destruct (array_element_write (STag "string") [] [KStr "tags"] (VRef 1) (record 2)
              tags_heap tags_heap tags_field _ _ 1
              tags_field_built eq_refl eq_refl I (VStr "z") tags_heap)
    as [Hcall Hset].
  split; [exact Hcall|].
  destruct (Hset [VStr "a"; VStr "b"; VStr "c"] eq_refl) as [Hin _].
  apply Hin. simpl. lia.
Defined.

(** Building the profile form over [null] keeps the four cells of the heap
    and appends empty ones. *)
Lemma build_only_allocates_witness :
  ∃ ext,
    snd (createField (SObject profile_scheme) [] VNull noop profile_heap)
    = profile_heap ++ ext
    ∧ Forall empty_cell ext
    ∧ snd (createField (SObject profile_scheme) [] VNull noop profile_heap) !! 0
      = Some (HObj profile_props).
Proof.
  destruct (build_only_allocates (SObject profile_scheme) [] VNull noop profile_heap
              _ _ (surjective_pairing _))
    as (ext & Hext & Hempty & Hkeep & _).
  exists ext. split; [exact Hext|]. split; [exact Hempty|].
  apply Hkeep. reflexivity.
Defined.

(** The login form has the fields [email] and [password]. *)
Lemma form_keys_witness :
  ∃ fields, login_form = ObjectField fields ∧ fields.*1 = ["email"; "password"].
Proof.
  assert (Forall named login_scheme.*1) as Hkeys'.
  { repeat (apply List.Forall_cons; [by split|]). apply List.Forall_nil. }
  destruct (form_keys login_scheme (VRef 0) (record 1) login_heap login_heap login_form
              login_keys_distinct Hkeys' login_form_created)
    as (fields & HF & Hkeys & _).
  exists fields. split; [exact HF|exact Hkeys].
Defined.

(** A number field over the string ["12abc"] stores the string. *)
Lemma scalar_buffer_typed_witness :
  ∃ type required val,
    ScalarField TNumber [KStr "age"] true (VStr "12abc") noop
    = ScalarField type [KStr "age"] required val noop
    ∧ buffer_typed [] type val.
Proof.
  assert (createField (STag "number") [KStr "age"] (VStr "12abc") noop []
          = (Return (ScalarField TNumber [KStr "age"] true (VStr "12abc") noop), []))
    as Hbuild by reflexivity.
  destruct (scalar_buffer_typed "number" [KStr "age"] (VStr "12abc") noop [] [] _ Hbuild)
    as (type & required & val & Hf & _ & Htyped & _).
  exists type, required, val. split; [exact Hf|exact Htyped].
Defined.

(** The string shown for the number [5] converts to itself. *)
Lemma stored_idempotent_witness :
  stored [] TNumber (stored [] TNumber (VNum (Some 5%Z)))
  = stored [] TNumber (VNum (Some 5%Z)).
Proof. exact (stored_idempotent [] TNumber (VNum (Some 5%Z))). Defined.

(** An optional file field over [undefined] extracts to [null]; so the
    tag is not a required one. *)
Lemma missing_value_extraction_witness :
  ∃ type required,
    createField (STag "file?") [KStr "photo"] VUndefined noop []
    = (Return (ScalarField type [KStr "photo"] required VNull noop), [])
    ∧ ("file?" ∈ required_tags ↔ required = true).
Proof.
  assert ("file?" ∈ scalar_tags) as Htag.
  { unfold scalar_tags. rewrite !elem_of_cons. by eauto 12. }
  destruct (missing_value_extraction "file?" [KStr "photo"] VUndefined noop []
              Htag eq_refl)
    as (type & required & Hbuild & Hreq & _).
  exists type, required. split; [exact Hbuild|exact Hreq].
Defined.

(** The data of the tags form has the shape of its schema. *)
Lemma extraction_conforms_witness :
  conforms tags_heap (SObject tags_scheme)
    (DObj [("tags", DArr [DValue (VStr "a"); DValue (VStr "b"); DValue (VStr "c")])]).
Proof.
  assert (named_keys (SObject tags_scheme)) as Hpf.
  { apply nk_object.
    - apply List.Forall_cons; [by split|apply List.Forall_nil].
    - unfold tags_scheme. apply List.Forall_cons; [|apply List.Forall_nil].
      simpl. apply nk_array, List.Forall_cons; [apply nk_tag|apply List.Forall_nil]. }
  assert (dense tags_heap (SObject tags_scheme) (VRef 0)) as Hdense.
  { apply dense_object with (props := {["tags" := VRef 1]}); [reflexivity|].
    unfold tags_scheme. apply List.Forall_cons; [|apply List.Forall_nil].
    simpl. apply dense_array with (elems := [VStr "a"; VStr "b"; VStr "c"]).
    - reflexivity.
    - rewrite !not_elem_of_cons. repeat split; try discriminate. apply not_elem_of_nil.
    - repeat (apply List.Forall_cons; [apply dense_tag|]). apply List.Forall_nil. }
  exact (extraction_conforms (SObject tags_scheme) tags_scheme_well_formed Hpf
           [] (VRef 0) (record 2) tags_heap tags_heap tags_form Hdense tags_form_built
           tags_heap _ eq_refl).
Defined.

(** The login object has no [password]: the field under that key holds
    [null]. *)
Lemma object_field_subfields_witness :
  ∃ ty required,
    subfield "password" login_form
    = Some (ScalarField ty [KStr "password"] required VNull
              (key_setter (record 1) (VRef 0) "password")).
Proof.
  assert (("password", STag "string") ∈ login_scheme) as Hin.
  { unfold login_scheme. rewrite !elem_of_cons. by eauto. }
  assert ("string" ∈ scalar_tags) as Htag.
  { unfold scalar_tags. rewrite !elem_of_cons. by left. }
  assert ("password" ∉ inherited_names) as Hown.
  { apply (bool_decide_unpack _). by vm_compute. }
  assert (plain login_heap (VRef 0)) as Hplain.
  { exists 0, {["email" := VStr "old"]}. by split. }
  destruct (object_field_subfields login_scheme [] (VRef 0) (record 1)
              login_heap login_heap login_form "password" (STag "string")
              login_keys_distinct Hin Hown (or_intror Hplain) login_form_built)
    as (f & h' & h'' & Hsub & _ & _ & Hmissing).
  destruct (Hmissing
              (or_intror (ex_intro _ 0 (ex_intro _ {["email" := VStr "old"]}
                 (conj eq_refl (conj eq_refl eq_refl)))))
              "string" eq_refl Htag)
    as (ty & required & Hf).
  exists ty, required. rewrite Hsub, Hf. reflexivity.
Defined.

(** Writing ["new"] through the [email] field of the login form updates
    the object; a form built again over it shows ["new"]. *)
Lemma write_then_rebuild_witness :
  ∃ F' h4,
    createField (SObject login_scheme) [] (VRef 0) (record 1)
      (snd (call1 (ScalarField TString [KStr "email"] true (VStr "old")
                     (key_setter (record 1) (VRef 0) "email"))
              (VStr "new") login_heap))
    = (Return F', h4)
    ∧ snd (call1 (ScalarField TString [KStr "email"] true (VStr "old")
                    (key_setter (record 1) (VRef 0) "email"))
             (VStr "new") login_heap) !! 0
      = Some (HObj (<["email" := VStr "new"]> {["email" := VStr "old"]}))
    ∧ ∃ h', subfield "email" F'
            = Some (ScalarField TString [KStr "email"] true
                      (stored h' TString (VStr "new"))
                      (key_setter (record 1) (VRef 0) "email")).
Proof.
  destruct (createField_total (SObject login_scheme)
              login_scheme_well_formed
              [] (VRef 0) (record 1)
              (snd (call1 (ScalarField TString [KStr "email"] true (VStr "old")
                             (key_setter (record 1) (VRef 0) "email"))
                      (VStr "new") login_heap)))
    as (F' & h4 & Hrebuild).
  assert (("email", STag "string") ∈ login_scheme) as Hin.
  { unfold login_scheme. rewrite !elem_of_cons. by left. }
  destruct (write_then_rebuild login_scheme [] [] 0 {["email" := VStr "old"]}
              (record 1) (record 1) "email" "string" TString true (VStr "new")
              login_heap login_heap login_heap h4 login_form F' _
              login_keys_distinct Hin ltac:(done) eq_refl login_form_built eq_refl eq_refl
              (λ y h0, record_elsewhere 1 0 y h0 ltac:(lia)) Hrebuild)
    as (_ & Hcell & (h' & _ & Hsub) & _).
  exists F', h4. split; [exact Hrebuild|]. split; [exact Hcell|].
  exists h'. exact Hsub.
Defined.

(** The tags form extracts to the same data in the empty heap. *)
Lemma extraction_reads_captured_witness :
  getFieldData [] tags_form
  = Return (DObj [("tags", DArr [DValue (VStr "a"); DValue (VStr "b"); DValue (VStr "c")])]).
Proof.
  assert (primitive_leaves tags_form) as Hfree.
  { unfold primitive_leaves. simpl. by repeat constructor. }
  destruct (extraction_reads_captured tags_form tags_heap [] Hfree) as (Hsame & _).
  apply Hsame. reflexivity.
Defined.

